(** * DDSketch (sketches-go): index mapping, sketch orchestration and the
      exact-quantile baseline, embedded from the Go sources.

    Numeric model.  A Go [float64] is idealised as a real number: arithmetic
    is exact, [math.Log] and [math.Exp] are [ln] and [exp], and NaN and the
    infinities are not values of the model (a function that returns
    [math.NaN()] returns the separate token [NaN] below).  A Go [int] is an
    unbounded [Z]; an [int32] is a [Z] whose arithmetic is wrapped with
    [wrap_int32]. *)

From Stdlib Require Import Reals Lra Lia ZArith List Bool.
From Stdlib Require Import Sorting.Sorted Sorting.Permutation.
Import ListNotations.
Open Scope R_scope.

(** ** Numbers *)

Abbreviation float64 := R (only parsing).

Definition Rltb (x y : float64) : bool := if Rlt_dec x y then true else false.
Definition Rleb (x y : float64) : bool := if Rle_dec x y then true else false.
Definition Rgtb (x y : float64) : bool := Rltb y x.
Definition Rgeb (x y : float64) : bool := Rleb y x.

(** Go's conversion [int(x)] of a float: the fractional part is discarded
    (truncation toward zero). *)
Definition int_of_float64 (x : float64) : Z :=
  if Rle_dec 0 x then Zfloor x else Zceil x.

(** Two's complement wrap-around of [int32] arithmetic. *)
Definition wrap_int32 (z : Z) : Z :=
  ((z + 2147483648) mod 4294967296 - 2147483648)%Z.

(** A float result that may be the NaN produced by [math.NaN()]. *)
Inductive float64_or_NaN : Type :=
| NaN : float64_or_NaN
| Num : float64 -> float64_or_NaN.

(** The error kinds of the library.  The sources build them with
    [errors.New]; each kind stands for the message given beside it. *)
Inductive error : Type :=
| InvalidAccuracy      (* "The relative accuracy must be between 0 and 1." *)
| InvalidGamma         (* "Gamma must be greater than 1." *)
| ValueOutOfRange      (* "input value is outside the range that is tracked by the sketch" *)
| NegativeCount        (* "count cannot be negative" *)
| InvalidQuantile      (* "quantile must be between 0 and 1" *)
| EmptyState           (* "no such element exists", and the store's own error *)
| IncompatibleMapping. (* "cannot merge sketches with different index mappings" *)

(** A Go pair [(value, error)]: exactly one component is meaningful. *)
Inductive result (A : Type) : Type :=
| Ok : A -> result A
| Err : error -> result A.
Arguments Ok {A} _.
Arguments Err {A} _.

Definition is_Err {A : Type} (r : result A) : bool :=
  match r with Ok _ => false | Err _ => true end.

(** The part of Go's [math] package that the sources use. *)
Module math.

Definition MinInt16 : Z := (-32768)%Z.
Definition MaxInt16 : Z := 32767%Z.

Definition Log (x : float64) : float64 := ln x.
Definition Log1p (x : float64) : float64 := ln (1 + x).
Definition Exp (x : float64) : float64 := exp x.
Definition Max (x y : float64) : float64 := Rmax x y.
Definition Min (x y : float64) : float64 := Rmin x y.
Definition Abs (x : float64) : float64 := Rabs x.
Definition Floor (x : float64) : float64 := IZR (Zfloor x).
Definition Ceil (x : float64) : float64 := IZR (Zceil x).

End math.

(** ** Package mapping: the interface and the package constants *)

Module mapping.

(** The [IndexMapping] interface, with the methods that
    [LogarithmicMapping] implements and that the sketch calls. *)
Class IndexMapping (M : Type) : Type := {
  Equals : M -> M -> bool;
  Index : M -> float64 -> Z;
  Value : M -> Z -> float64;
  RelativeAccuracy : M -> float64;
  MinIndexableValue : M -> float64;
  MaxIndexableValue : M -> float64
}.

(** The constants [expOverflow] and [minNormalFloat64] are declared in a
    file of the package that is not among the sources; the functions that
    read them take them as parameters. *)
Class Constants : Type := {
  expOverflow : float64;
  minNormalFloat64 : float64
}.

(** Modelled from the spec: [withinTolerance] is declared outside the
    available sources; the spec describes the comparison made by [Equals]
    as agreement within an absolute tolerance. *)
Definition withinTolerance (x y tolerance : float64) : bool :=
  Rleb (math.Abs (x - y)) tolerance.

End mapping.

(** ** ddsketch/mapping/logarithmic_mapping.go *)

Module logarithmic_mapping.
Import mapping.

Record LogarithmicMapping : Type := {
  relativeAccuracy : float64;
  multiplier : float64;
  normalizedIndexOffset : float64;
  minIndexableValue : float64;
  maxIndexableValue : float64
}.

Definition set_minIndexableValue (m : LogarithmicMapping) (x : float64)
  : LogarithmicMapping :=
  {| relativeAccuracy := relativeAccuracy m;
     multiplier := multiplier m;
     normalizedIndexOffset := normalizedIndexOffset m;
     minIndexableValue := x;
     maxIndexableValue := maxIndexableValue m |}.

Definition set_maxIndexableValue (m : LogarithmicMapping) (x : float64)
  : LogarithmicMapping :=
  {| relativeAccuracy := relativeAccuracy m;
     multiplier := multiplier m;
     normalizedIndexOffset := normalizedIndexOffset m;
     minIndexableValue := minIndexableValue m;
     maxIndexableValue := x |}.

Section WithConstants.
Context {consts : Constants}.

Definition computeMinIndexableValue (m : LogarithmicMapping) : float64 :=
  math.Max
    (math.Exp ((IZR math.MinInt16 - normalizedIndexOffset m) / multiplier m + 1))
    (minNormalFloat64 * (1 + relativeAccuracy m) / (1 - relativeAccuracy m)).

Definition computeMaxIndexableValue (m : LogarithmicMapping) : float64 :=
  math.Min
    (math.Exp ((IZR math.MaxInt16 - normalizedIndexOffset m) / multiplier m - 1))
    (math.Exp expOverflow / (1 + relativeAccuracy m)).

(** The struct literal leaves the unnamed fields at their zero value; the
    two cached bounds are then filled in from the partly built value. *)
Definition NewLogarithmicMapping (relativeAccuracy : float64)
  : result LogarithmicMapping :=
  if Rleb relativeAccuracy 0 || Rgeb relativeAccuracy 1 then Err InvalidAccuracy
  else
    let m := {| relativeAccuracy := relativeAccuracy;
                multiplier := 1 / math.Log1p (2 * relativeAccuracy / (1 - relativeAccuracy));
                normalizedIndexOffset := 0;
                minIndexableValue := 0;
                maxIndexableValue := 0 |} in
    let m := set_minIndexableValue m (computeMinIndexableValue m) in
    let m := set_maxIndexableValue m (computeMaxIndexableValue m) in
    Ok m.

Definition NewLogarithmicMappingWithGamma (gamma indexOffset : float64)
  : result LogarithmicMapping :=
  if Rleb gamma 1 then Err InvalidGamma
  else
    let m := {| relativeAccuracy := 1 - 2 / (1 + gamma);
                multiplier := 1 / math.Log gamma;
                normalizedIndexOffset := indexOffset;
                minIndexableValue := 0;
                maxIndexableValue := 0 |} in
    let m := set_minIndexableValue m (computeMinIndexableValue m) in
    let m := set_maxIndexableValue m (computeMaxIndexableValue m) in
    Ok m.

(** What either constructor leaves in the struct, in terms of the bucket
    ratio [gamma]: used to state facts about both constructors at once. *)
Definition built_with (gamma : R) (m : LogarithmicMapping) : Prop :=
  1 < gamma /\
  multiplier m = 1 / ln gamma /\
  relativeAccuracy m = (gamma - 1) / (gamma + 1) /\
  minIndexableValue m = computeMinIndexableValue m /\
  maxIndexableValue m = computeMaxIndexableValue m.

End WithConstants.

(** [other] is asserted to be a [*LogarithmicMapping]; it is the only
    implementation of the interface, so the assertion succeeds. *)
Definition Equals (m o : LogarithmicMapping) : bool :=
  let tol := 1e-12 in
  withinTolerance (multiplier m) (multiplier o) tol
  && withinTolerance (normalizedIndexOffset m) (normalizedIndexOffset o) tol.

Definition Index (m : LogarithmicMapping) (value : float64) : Z :=
  let index := math.Log value * multiplier m + normalizedIndexOffset m in
  if Rgeb index 0 then int_of_float64 index
  else (int_of_float64 index - 1)%Z. (* faster than Math.Floor *)

(** The float that [Index] computes before it converts to [int]. *)
Definition raw_index (m : LogarithmicMapping) (value : float64) : float64 :=
  math.Log value * multiplier m + normalizedIndexOffset m.

Definition Value (m : LogarithmicMapping) (index : Z) : float64 :=
  math.Exp ((IZR index - normalizedIndexOffset m) / multiplier m)
  * (1 + relativeAccuracy m).

Definition MinIndexableValue (m : LogarithmicMapping) : float64 :=
  minIndexableValue m.

Definition MaxIndexableValue (m : LogarithmicMapping) : float64 :=
  maxIndexableValue m.

Definition RelativeAccuracy (m : LogarithmicMapping) : float64 :=
  relativeAccuracy m.

#[export] Instance LogarithmicMapping_IndexMapping
  : IndexMapping LogarithmicMapping := {|
  mapping.Equals := Equals;
  mapping.Index := Index;
  mapping.Value := Value;
  mapping.RelativeAccuracy := RelativeAccuracy;
  mapping.MinIndexableValue := MinIndexableValue;
  mapping.MaxIndexableValue := MaxIndexableValue
|}.

End logarithmic_mapping.

(** ** Package store *)

Module store.

Record Bin : Type := { index : Z; count : Z }.

(** The [Store] interface, with the methods that the sketch calls.  A call
    that mutates its receiver returns the receiver's new state. *)
Class Store (St : Type) : Type := {
  AddWithCount : St -> Z -> Z -> St;
  TotalCount : St -> Z;
  IsEmpty : St -> bool;
  MinIndex : St -> result Z;
  MaxIndex : St -> result Z;
  KeyAtRank : St -> float64 -> Z;
  MergeWith : St -> St -> St;
  Copy : St -> St;
  Bins : St -> list Bin
}.

End store.

(** Modelled from the spec: the three bucket stores ([NewDenseStore],
    [NewCollapsingLowestDenseStore], [NewCollapsingHighestDenseStore]) are
    not among the sources.  Following the spec's data model, a store is a
    mapping from bucket index to count, kept here as the ascending sequence
    of its buckets of non-zero count, together with its collapsing policy. *)

Module dense_store.
Import store.

Inductive policy : Type :=
| Unbounded
| CollapsingLowest (maxNumBins : Z)
| CollapsingHighest (maxNumBins : Z).

Record DenseStore : Type := { bins : list Bin; strategy : policy }.

Definition NewDenseStore : DenseStore :=
  {| bins := []; strategy := Unbounded |}.

Definition NewCollapsingLowestDenseStore (maxNumBins : Z) : DenseStore :=
  {| bins := []; strategy := CollapsingLowest maxNumBins |}.

Definition NewCollapsingHighestDenseStore (maxNumBins : Z) : DenseStore :=
  {| bins := []; strategy := CollapsingHighest maxNumBins |}.

(** Increment the bucket at [i], creating it in index order if absent. *)
Fixpoint increment (i c : Z) (bs : list Bin) : list Bin :=
  match bs with
  | [] => [{| index := i; count := c |}]
  | b :: rest =>
      if (i <? index b)%Z then {| index := i; count := c |} :: b :: rest
      else if (i =? index b)%Z then {| index := i; count := (count b + c)%Z |} :: rest
      else b :: increment i c rest
  end.

(** Merge the first bucket into the second, [excess] times: the mass of the
    buckets at the front is summed into the first retained bucket. *)
Fixpoint collapse_front (excess : nat) (bs : list Bin) : list Bin :=
  match excess, bs with
  | S k, b1 :: b2 :: rest =>
      collapse_front k ({| index := index b2; count := (count b1 + count b2)%Z |} :: rest)
  | _, _ => bs
  end.

Definition enforce (p : policy) (bs : list Bin) : list Bin :=
  match p with
  | Unbounded => bs
  | CollapsingLowest maxNumBins =>
      collapse_front (length bs - Z.to_nat maxNumBins) bs
  | CollapsingHighest maxNumBins =>
      rev (collapse_front (length bs - Z.to_nat maxNumBins) (rev bs))
  end.

Definition AddWithCount (s : DenseStore) (i c : Z) : DenseStore :=
  if (c =? 0)%Z then s
  else {| bins := enforce (strategy s) (increment i c (bins s));
          strategy := strategy s |}.

Definition TotalCount (s : DenseStore) : Z :=
  fold_right (fun b acc => (count b + acc)%Z) 0%Z (bins s).

Definition IsEmpty (s : DenseStore) : bool := (TotalCount s =? 0)%Z.

Definition MinIndex (s : DenseStore) : result Z :=
  match bins s with
  | [] => Err EmptyState
  | b :: _ => Ok (index b)
  end.

Definition MaxIndex (s : DenseStore) : result Z :=
  match rev (bins s) with
  | [] => Err EmptyState
  | b :: _ => Ok (index b)
  end.

(** Ascending scan of the cumulative count; a rank past the end is clamped
    to the last bucket seen. *)
Fixpoint scan_rank (bs : list Bin) (cumulative : Z) (rank : float64) (last : Z) : Z :=
  match bs with
  | [] => last
  | b :: rest =>
      let cumulative := (cumulative + count b)%Z in
      if Rltb rank (IZR cumulative) then index b
      else scan_rank rest cumulative rank (index b)
  end.

Definition KeyAtRank (s : DenseStore) (rank : float64) : Z :=
  scan_rank (bins s) 0%Z rank 0%Z.

Definition MergeWith (s other : DenseStore) : DenseStore :=
  fold_left (fun acc b => AddWithCount acc (index b) (count b)) (bins other) s.

Definition Copy (s : DenseStore) : DenseStore := s.

Definition Bins (s : DenseStore) : list Bin := bins s.

#[export] Instance DenseStore_Store : Store DenseStore := {|
  store.AddWithCount := AddWithCount;
  store.TotalCount := TotalCount;
  store.IsEmpty := IsEmpty;
  store.MinIndex := MinIndex;
  store.MaxIndex := MaxIndex;
  store.KeyAtRank := KeyAtRank;
  store.MergeWith := MergeWith;
  store.Copy := Copy;
  store.Bins := Bins
|}.

End dense_store.

(** ** ddsketch/ddsketch.go *)

Module ddsketch.

(** The sketch embeds the mapping interface and owns a store.  A method that
    mutates the sketch returns the new state next to its error. *)
Record DDSketch (M St : Type) : Type := {
  IndexMapping : M;
  store : St
}.
Arguments IndexMapping {M St} _.
Arguments store {M St} _.

Section Methods.
Context {M St : Type} {im : mapping.IndexMapping M} {st : store.Store St}.

Definition NewDDSketch (indexMapping : M) (store : St) : DDSketch M St :=
  {| IndexMapping := indexMapping; store := store |}.

Definition AddWithCount (s : DDSketch M St) (value : float64) (count : Z)
  : option error * DDSketch M St :=
  if Rltb value (mapping.MinIndexableValue (IndexMapping s))
     || Rgtb value (mapping.MaxIndexableValue (IndexMapping s))
  then (Some ValueOutOfRange, s)
  else if (count <? 0)%Z then (Some NegativeCount, s)
  else
    (None,
     {| IndexMapping := IndexMapping s;
        store := store.AddWithCount (store s)
                   (mapping.Index (IndexMapping s) value) count |}).

Definition Add (s : DDSketch M St) (value : float64)
  : option error * DDSketch M St :=
  AddWithCount s value 1%Z.

Definition Copy (s : DDSketch M St) : DDSketch M St :=
  {| IndexMapping := IndexMapping s; store := store.Copy (store s) |}.

Definition GetCount (s : DDSketch M St) : Z :=
  store.TotalCount (store s).

Definition IsEmpty (s : DDSketch M St) : bool :=
  store.IsEmpty (store s).

Definition GetIndexAtQuantile (s : DDSketch M St) (quantile : float64)
  : result Z :=
  if Rltb quantile 0 || Rgtb quantile 1 then Err InvalidQuantile
  else
    let count := GetCount s in
    if (count =? 0)%Z then Err EmptyState
    else
      let rank := quantile * IZR (wrap_int32 (count - 1)) in
      Ok (store.KeyAtRank (store s) rank).

(** On an error the Go function returns [(math.NaN(), err)]; the float is
    then meaningless and only the error is kept. *)
Definition GetValueAtQuantile (s : DDSketch M St) (quantile : float64)
  : result float64 :=
  match GetIndexAtQuantile s quantile with
  | Err err => Err err
  | Ok key => Ok (mapping.Value (IndexMapping s) key)
  end.

Fixpoint GetValuesAtQuantiles (s : DDSketch M St) (quantiles : list float64)
  : result (list float64) :=
  match quantiles with
  | [] => Ok []
  | q :: rest =>
      match GetValueAtQuantile s q with
      | Err err => Err err
      | Ok val =>
          match GetValuesAtQuantiles s rest with
          | Err err => Err err
          | Ok values => Ok (val :: values)
          end
      end
  end.

Definition GetMaxValue (s : DDSketch M St) : result float64 :=
  match store.MaxIndex (store s) with
  | Err err => Err err
  | Ok maxIndex => Ok (mapping.Value (IndexMapping s) maxIndex)
  end.

Definition GetMinValue (s : DDSketch M St) : result float64 :=
  match store.MinIndex (store s) with
  | Err err => Err err
  | Ok minIndex => Ok (mapping.Value (IndexMapping s) minIndex)
  end.

(** Returns the error, the receiver after the call and the argument after
    the call. *)
Definition MergeWith (s other : DDSketch M St)
  : option error * DDSketch M St * DDSketch M St :=
  if negb (mapping.Equals (IndexMapping s) (IndexMapping other))
  then (Some IncompatibleMapping, s, other)
  else
    (None,
     {| IndexMapping := IndexMapping s;
        store := store.MergeWith (store s) (store other) |},
     other).

Definition Bins (s : DDSketch M St) : list store.Bin :=
  store.Bins (store s).

End Methods.

Section Constructors.
Context {consts : mapping.Constants}.
Import logarithmic_mapping dense_store.

Definition LogUnboundedDenseDDSketch (relativeAccuracy : float64)
  : result (DDSketch LogarithmicMapping DenseStore) :=
  match NewLogarithmicMapping relativeAccuracy with
  | Err err => Err err
  | Ok indexMapping => Ok (NewDDSketch indexMapping NewDenseStore)
  end.

Definition NewDefaultDDSketch (relativeAccuracy : float64)
  : result (DDSketch LogarithmicMapping DenseStore) :=
  LogUnboundedDenseDDSketch relativeAccuracy.

Definition LogCollapsingLowestDenseDDSketch (relativeAccuracy : float64)
  (maxNumBins : Z) : result (DDSketch LogarithmicMapping DenseStore) :=
  match NewLogarithmicMapping relativeAccuracy with
  | Err err => Err err
  | Ok indexMapping =>
      Ok (NewDDSketch indexMapping (NewCollapsingLowestDenseStore maxNumBins))
  end.

Definition LogCollapsingHighestDenseDDSketch (relativeAccuracy : float64)
  (maxNumBins : Z) : result (DDSketch LogarithmicMapping DenseStore) :=
  match NewLogarithmicMapping relativeAccuracy with
  | Err err => Err err
  | Ok indexMapping =>
      Ok (NewDDSketch indexMapping (NewCollapsingHighestDenseStore maxNumBins))
  end.

End Constructors.

End ddsketch.

(** ** dataset/dataset.go *)

(** [sort.Float64s] orders a slice of floats ascending, in place.  On real
    numbers the ascending arrangement of a sequence is unique, so any sorting
    algorithm gives the same slice; insertion sort stands for it. *)
Module sort.

Fixpoint insert (x : float64) (l : list float64) : list float64 :=
  match l with
  | [] => [x]
  | y :: l' => if Rle_dec x y then x :: y :: l' else y :: insert x l'
  end.

Fixpoint Float64s (l : list float64) : list float64 :=
  match l with
  | [] => []
  | x :: l' => insert x (Float64s l')
  end.

End sort.

Module dataset.

Record Dataset : Type := {
  Values : list float64;
  Count : Z;
  sorted : bool
}.

(** What a call does: it returns a value, or the Go runtime panics. *)
Inductive outcome (A : Type) : Type :=
| Returns : A -> outcome A
| Panics : outcome A.
Arguments Returns {A} _.
Arguments Panics {A}.

(** The indexing expression [s[i]] on a slice: a panic out of range. *)
Definition slice_index (s : list float64) (i : Z) : outcome float64 :=
  if (i <? 0)%Z || (Z.of_nat (length s) <=? i)%Z then Panics
  else
    match nth_error s (Z.to_nat i) with
    | Some x => Returns x
    | None => Panics
    end.

Definition as_Num (o : outcome float64) : outcome float64_or_NaN :=
  match o with
  | Returns x => Returns (Num x)
  | Panics => Panics
  end.

Definition NewDataset : Dataset :=
  {| Values := []; Count := 0%Z; sorted := false |}.

Definition Add (d : Dataset) (v : float64) : Dataset :=
  {| Values := Values d ++ [v];
     Count := wrap_int32 (Count d + 1);
     sorted := false |}.

Definition sort (d : Dataset) : Dataset :=
  if sorted d then d
  else {| Values := sort.Float64s (Values d); Count := Count d; sorted := true |}.

(** Every query returns its outcome and the dataset after the call. *)
Definition LowerQuantile (d : Dataset) (q : float64)
  : outcome float64_or_NaN * Dataset :=
  if Rltb q 0 || Rgtb q 1 || (Count d =? 0)%Z then (Returns NaN, d)
  else
    let d := sort d in
    let rank := q * IZR (wrap_int32 (Count d - 1)) in
    (as_Num (slice_index (Values d) (int_of_float64 (math.Floor rank))), d).

Definition Quantile (d : Dataset) (q : float64)
  : outcome float64_or_NaN * Dataset :=
  LowerQuantile d q.

Definition UpperQuantile (d : Dataset) (q : float64)
  : outcome float64_or_NaN * Dataset :=
  if Rltb q 0 || Rgtb q 1 || (Count d =? 0)%Z then (Returns NaN, d)
  else
    let d := sort d in
    let rank := q * IZR (wrap_int32 (Count d - 1)) in
    (as_Num (slice_index (Values d) (int_of_float64 (math.Ceil rank))), d).

Definition Min (d : Dataset) : outcome float64 * Dataset :=
  let d := sort d in
  (slice_index (Values d) 0%Z, d).

Definition Max (d : Dataset) : outcome float64 * Dataset :=
  let d := sort d in
  (slice_index (Values d) (Z.of_nat (length (Values d)) - 1)%Z, d).

Definition Merge (d o : Dataset) : Dataset :=
  fold_left Add (Values o) d.

(** The datasets that the package can build.  A query leaves the dataset
    as [sort] does, and [Merge] is a sequence of [Add]. *)
Inductive reachable : Dataset -> Prop :=
| reachable_New : reachable NewDataset
| reachable_Add d v : reachable d -> reachable (Add d v)
| reachable_sort d : reachable d -> reachable (sort d).

(** The state invariant: the counter follows the slice, and the flag is
    only set on an ascending slice. *)
Definition invariant (d : Dataset) : Prop :=
  Count d = wrap_int32 (Z.of_nat (length (Values d))) /\
  (sorted d = true -> Sorted Rle (Values d)).

(** The dataset after [Add(3)] and [Add(1)]. *)
Definition three_then_one : Dataset := Add (Add NewDataset 3) 1.

End dataset.

(** Values of the two package constants for the worked instances: the
    smallest positive normal binary64 number and an exponent below the
    overflow threshold of [math.Exp]. *)
Definition reference_constants : mapping.Constants :=
  {| mapping.expOverflow := 7.094361393031e+02;
     mapping.minNormalFloat64 := 2.2250738585072014e-308 |}.

(** * Properties *)

(** ** Comparisons, conversions and elementary real analysis *)

Lemma Rltb_true (x y : R) : Rltb x y = true <-> x < y.
Proof. unfold Rltb. destruct (Rlt_dec x y); split; intros; easy. Qed.

Lemma Rltb_false (x y : R) : Rltb x y = false <-> y <= x.
Proof. unfold Rltb. destruct (Rlt_dec x y); split; intros; try easy; lra. Qed.

Lemma Rleb_true (x y : R) : Rleb x y = true <-> x <= y.
Proof. unfold Rleb. destruct (Rle_dec x y); split; intros; easy. Qed.

Lemma Rleb_false (x y : R) : Rleb x y = false <-> y < x.
Proof. unfold Rleb. destruct (Rle_dec x y); split; intros; try easy; lra. Qed.

Lemma Rgtb_true (x y : R) : Rgtb x y = true <-> y < x.
Proof. apply Rltb_true. Qed.

Lemma Rgtb_false (x y : R) : Rgtb x y = false <-> x <= y.
Proof. apply Rltb_false. Qed.

Lemma Rgeb_true (x y : R) : Rgeb x y = true <-> y <= x.
Proof. apply Rleb_true. Qed.

Lemma Rgeb_false (x y : R) : Rgeb x y = false <-> x < y.
Proof. apply Rleb_false. Qed.

Lemma option_not_not_None {A : Type} (o : option A) : ~ o <> None -> o = None.
Proof. destruct o; [intros H; exfalso; apply H; discriminate | reflexivity]. Qed.

Lemma int_of_float64_nonneg (x : R) : 0 <= x -> int_of_float64 x = Zfloor x.
Proof.
  intros Hx. unfold int_of_float64.
  destruct (Rle_dec 0 x); [reflexivity | lra].
Qed.

Lemma int_of_float64_neg (x : R) : x < 0 -> int_of_float64 x = Zceil x.
Proof.
  intros Hx. unfold int_of_float64.
  destruct (Rle_dec 0 x); [lra | reflexivity].
Qed.

Lemma int_of_Floor (x : R) : int_of_float64 (math.Floor x) = Zfloor x.
Proof.
  unfold math.Floor, int_of_float64.
  destruct (Rle_dec 0 (IZR (Zfloor x))).
  - apply ZfloorZ.
  - unfold Zceil. rewrite <- opp_IZR, ZfloorZ. lia.
Qed.


Lemma wrap_int32_small (z : Z) :
  (-2147483648 <= z < 2147483648)%Z -> wrap_int32 z = z.
Proof. intros H. unfold wrap_int32. rewrite Z.mod_small; lia. Qed.

Lemma wrap_int32_succ (z : Z) :
  wrap_int32 (wrap_int32 z + 1) = wrap_int32 (z + 1).
Proof.
  unfold wrap_int32.
  replace ((z + 2147483648) mod 4294967296 - 2147483648 + 1 + 2147483648)%Z
    with ((z + 2147483648) mod 4294967296 + 1)%Z by lia.
  rewrite Z.add_mod_idemp_l by lia. do 2 f_equal. lia.
Qed.

Lemma quotient_above_one (a b : R) : 0 < b -> b < a -> 1 < a / b.
Proof.
  intros Hb Hab. apply (Rmult_lt_reg_r b); [exact Hb|].
  replace (a / b * b) with a by (field; lra). lra.
Qed.

Lemma quotient_below_one (a b : R) : 0 < b -> a < b -> a / b < 1.
Proof.
  intros Hb Hab. apply (Rmult_lt_reg_r b); [exact Hb|].
  replace (a / b * b) with a by (field; lra). lra.
Qed.

Lemma exp_le_mono (x y : R) : x <= y -> exp x <= exp y.
Proof.
  intros [H| ->]; [left; now apply exp_increasing | right; reflexivity].
Qed.

Lemma ln_le_mono (x y : R) : 0 < x -> x <= y -> ln x <= ln y.
Proof.
  intros Hx [H| ->]; [left; now apply ln_increasing | right; reflexivity].
Qed.

Lemma ln_below_chord (x : R) : 0 < x -> x <> 1 -> ln x < x - 1.
Proof.
  intros Hx Hx1. pose proof (exp_ineq1 (ln x) (ln_neq_0 x Hx1 Hx)) as H.
  rewrite (exp_ln x Hx) in H. lra.
Qed.

(** ** The logarithmic mapping *)

Section LogarithmicMapping.
Import mapping logarithmic_mapping.

(** *** What [Index] returns, relative to the float it converts *)

Lemma Index_nonneg_raw m v :
  0 <= raw_index m v -> Index m v = Zfloor (raw_index m v).
Proof.
  intros H. unfold Index. fold (raw_index m v).
  destruct (Rgeb (raw_index m v) 0) eqn:E.
  - now apply int_of_float64_nonneg.
  - apply Rgeb_false in E. lra.
Qed.

Lemma Index_neg_raw m v :
  raw_index m v < 0 -> Index m v = (Zceil (raw_index m v) - 1)%Z.
Proof.
  intros H. unfold Index. fold (raw_index m v).
  destruct (Rgeb (raw_index m v) 0) eqn:E.
  - apply Rgeb_true in E. lra.
  - now rewrite int_of_float64_neg.
Qed.

(** The index is within one below the float, both ends included. *)
Lemma Index_bracket m v :
  IZR (Index m v) <= raw_index m v <= IZR (Index m v) + 1.
Proof.
  destruct (Rle_lt_dec 0 (raw_index m v)) as [H|H].
  - rewrite (Index_nonneg_raw _ _ H).
    pose proof (Zfloor_bound (raw_index m v)). lra.
  - rewrite (Index_neg_raw _ _ H), minus_IZR.
    pose proof (Zceil_bound (raw_index m v)). lra.
Qed.


(** At a negative integer the conversion already is the floor, and the
    subtraction takes the index one bucket lower. *)
Lemma Index_at_negative_integer m v k :
  raw_index m v = IZR k -> (k < 0)%Z ->
  Index m v = (k - 1)%Z /\ Zfloor (raw_index m v) = k.
Proof.
  intros H Hk.
  assert (Hx : raw_index m v < 0) by (rewrite H; now apply IZR_lt).
  rewrite (Index_neg_raw _ _ Hx), H. unfold Zceil.
  rewrite <- opp_IZR, !ZfloorZ. lia.
Qed.

Lemma withinTolerance_true x y tol :
  withinTolerance x y tol = true <-> Rabs (x - y) <= tol.
Proof. unfold withinTolerance, math.Abs. apply Rleb_true. Qed.

Lemma Equals_true m o :
  Equals m o = true <->
  Rabs (multiplier m - multiplier o) <= 1e-12 /\
  Rabs (normalizedIndexOffset m - normalizedIndexOffset o) <= 1e-12.
Proof.
  unfold Equals. rewrite andb_true_iff, !withinTolerance_true. reflexivity.
Qed.

Lemma Equals_refl m : Equals m m = true.
Proof. apply Equals_true. rewrite !Rminus_diag, Rabs_R0. lra. Qed.

Context {consts : Constants}.

(** *** The constructors *)

Lemma NewLogarithmicMapping_Ok alpha m :
  NewLogarithmicMapping alpha = Ok m ->
  0 < alpha < 1 /\ relativeAccuracy m = alpha /\
  normalizedIndexOffset m = 0 /\
  built_with ((1 + alpha) / (1 - alpha)) m.
Proof.
  unfold NewLogarithmicMapping.
  destruct (Rleb alpha 0) eqn:E0; [discriminate|].
  destruct (Rgeb alpha 1) eqn:E1; [discriminate|].
  apply Rleb_false in E0. apply Rgeb_false in E1. simpl.
  intros H. injection H as <-.
  repeat split; simpl; try lra.
  - apply quotient_above_one; lra.
  - unfold math.Log1p. do 2 f_equal. field. lra.
  - field. lra.
Qed.

Lemma NewLogarithmicMapping_succeeds alpha :
  0 < alpha < 1 -> exists m, NewLogarithmicMapping alpha = Ok m.
Proof.
  intros H. unfold NewLogarithmicMapping.
  destruct (Rleb alpha 0) eqn:E0; [apply Rleb_true in E0; lra|].
  destruct (Rgeb alpha 1) eqn:E1; [apply Rgeb_true in E1; lra|].
  simpl. eauto.
Qed.

Lemma NewLogarithmicMapping_rejects alpha :
  ~ 0 < alpha < 1 -> NewLogarithmicMapping alpha = Err InvalidAccuracy.
Proof.
  intros H. unfold NewLogarithmicMapping.
  destruct (Rleb alpha 0) eqn:E0; [reflexivity|].
  destruct (Rgeb alpha 1) eqn:E1; [reflexivity|].
  apply Rleb_false in E0. apply Rgeb_false in E1. lra.
Qed.

Lemma NewLogarithmicMappingWithGamma_Ok gamma indexOffset m :
  NewLogarithmicMappingWithGamma gamma indexOffset = Ok m ->
  normalizedIndexOffset m = indexOffset /\ built_with gamma m.
Proof.
  unfold NewLogarithmicMappingWithGamma.
  destruct (Rleb gamma 1) eqn:E; [discriminate|].
  apply Rleb_false in E. simpl.
  intros H. injection H as <-.
  repeat split; simpl; try lra.
  field. lra.
Qed.

Lemma NewLogarithmicMappingWithGamma_succeeds gamma indexOffset :
  1 < gamma ->
  exists m, NewLogarithmicMappingWithGamma gamma indexOffset = Ok m.
Proof.
  intros H. unfold NewLogarithmicMappingWithGamma.
  destruct (Rleb gamma 1) eqn:E; [apply Rleb_true in E; lra|]. eauto.
Qed.

(** *** Consequences of the construction *)

Lemma built_with_ln_pos gamma m : built_with gamma m -> 0 < ln gamma.
Proof. intros [H _]. rewrite <- ln_1. apply ln_increasing; lra. Qed.

Lemma built_with_accuracy gamma m :
  built_with gamma m -> 0 < relativeAccuracy m < 1.
Proof.
  intros (H & _ & -> & _). split.
  - apply Rdiv_lt_0_compat; lra.
  - apply quotient_below_one; lra.
Qed.

Lemma built_with_raw_index gamma m v :
  built_with gamma m ->
  ln v = (raw_index m v - normalizedIndexOffset m) * ln gamma.
Proof.
  intros B. pose proof (built_with_ln_pos _ _ B) as L.
  destruct B as (_ & Hm & _). unfold raw_index, math.Log. rewrite Hm.
  field. lra.
Qed.

Lemma indexable_positive gamma m v :
  built_with gamma m -> MinIndexableValue m <= v -> 0 < v.
Proof.
  intros (_ & _ & _ & Hmin & _) Hv. unfold MinIndexableValue in Hv.
  rewrite Hmin in Hv.
  unfold computeMinIndexableValue, math.Max, math.Exp in Hv.
  eapply Rlt_le_trans; [|exact Hv].
  eapply Rlt_le_trans; [apply exp_pos | apply Rmax_l].
Qed.

(** The ratio of a bucket's representative to a value depends only on the
    distance between the bucket index and the value's float index. *)
Lemma Value_over_value gamma m v i :
  built_with gamma m -> 0 < v ->
  Value m i / v
  = exp ((IZR i - raw_index m v) * ln gamma) * (1 + relativeAccuracy m).
Proof.
  intros B Hv. pose proof (built_with_ln_pos _ _ B) as L.
  pose proof (built_with_raw_index _ _ v B) as Hln.
  destruct B as (_ & Hm & _). unfold Value, math.Exp. rewrite Hm.
  rewrite <- (exp_ln v Hv) at 1. rewrite Hln.
  replace ((IZR i - raw_index m v) * ln gamma)
    with ((IZR i - normalizedIndexOffset m) / (1 / ln gamma)
          + - ((raw_index m v - normalizedIndexOffset m) * ln gamma))
    by (field; lra).
  rewrite exp_plus, exp_Ropp. field. apply Rgt_not_eq, exp_pos.
Qed.

Lemma Value_Index_ratio gamma m v :
  built_with gamma m -> 0 < v ->
  1 - relativeAccuracy m <= Value m (Index m v) / v <= 1 + relativeAccuracy m.
Proof.
  intros B Hv. rewrite (Value_over_value gamma m v _ B Hv).
  pose proof (built_with_ln_pos _ _ B) as L.
  pose proof (built_with_accuracy _ _ B) as A.
  pose proof (Index_bracket m v) as [Hlo Hhi].
  destruct B as (G & _ & Ha & _).
  set (t := (IZR (Index m v) - raw_index m v) * ln gamma).
  assert (Ht : - ln gamma <= t <= 0) by (unfold t; nra).
  assert (Hup : exp t <= 1).
  { rewrite <- exp_0. apply exp_le_mono, Ht. }
  assert (Hdn : / gamma <= exp t).
  { rewrite <- (exp_ln gamma) at 1 by lra. rewrite <- exp_Ropp.
    apply exp_le_mono, Ht. }
  assert (Hg : (1 + relativeAccuracy m) * / gamma = 1 - relativeAccuracy m).
  { rewrite Ha. field. lra. }
  split; [rewrite <- Hg|]; nra.
Qed.

Lemma reconstruction_bound gamma m v :
  built_with gamma m -> MinIndexableValue m <= v ->
  Rabs (Value m (Index m v) / v - 1) <= relativeAccuracy m.
Proof.
  intros B Hlo. pose proof (indexable_positive _ _ _ B Hlo) as Hpos.
  pose proof (Value_Index_ratio _ _ v B Hpos) as [H1 H2].
  apply Rabs_le. lra.
Qed.

Lemma raw_index_lower gamma m v :
  built_with gamma m -> MinIndexableValue m <= v ->
  IZR math.MinInt16 < raw_index m v.
Proof.
  intros B Hv. pose proof (indexable_positive _ _ _ B Hv) as Hpos.
  pose proof (built_with_ln_pos _ _ B) as L.
  pose proof (built_with_raw_index _ _ v B) as Hln.
  destruct B as (_ & Hm & _ & Hmin & _).
  unfold MinIndexableValue in Hv. rewrite Hmin in Hv.
  unfold computeMinIndexableValue, math.Max, math.Exp in Hv.
  rewrite Hm in Hv.
  set (A := (IZR math.MinInt16 - normalizedIndexOffset m) / (1 / ln gamma) + 1)
    in Hv.
  assert (HA : A <= ln v).
  { rewrite <- (ln_exp A). apply ln_le_mono; [apply exp_pos|].
    eapply Rle_trans; [apply Rmax_l | exact Hv]. }
  unfold A in HA.
  replace ((IZR math.MinInt16 - normalizedIndexOffset m) / (1 / ln gamma))
    with ((IZR math.MinInt16 - normalizedIndexOffset m) * ln gamma) in HA
    by (field; lra).
  nra.
Qed.

Lemma raw_index_upper gamma m v :
  built_with gamma m -> 0 < v -> v <= MaxIndexableValue m ->
  raw_index m v < IZR math.MaxInt16.
Proof.
  intros B Hpos Hv.
  pose proof (built_with_ln_pos _ _ B) as L.
  pose proof (built_with_raw_index _ _ v B) as Hln.
  destruct B as (_ & Hm & _ & _ & Hmax).
  unfold MaxIndexableValue in Hv. rewrite Hmax in Hv.
  unfold computeMaxIndexableValue, math.Min, math.Exp in Hv.
  rewrite Hm in Hv.
  set (A := (IZR math.MaxInt16 - normalizedIndexOffset m) / (1 / ln gamma) - 1)
    in Hv.
  assert (HA : ln v <= A).
  { rewrite <- (ln_exp A). apply ln_le_mono; [exact Hpos|].
    eapply Rle_trans; [exact Hv | apply Rmin_l]. }
  unfold A in HA.
  replace ((IZR math.MaxInt16 - normalizedIndexOffset m) / (1 / ln gamma))
    with ((IZR math.MaxInt16 - normalizedIndexOffset m) * ln gamma) in HA
    by (field; lra).
  nra.
Qed.

Lemma Index_int16 gamma m v :
  built_with gamma m ->
  MinIndexableValue m <= v <= MaxIndexableValue m ->
  (math.MinInt16 <= Index m v <= math.MaxInt16)%Z.
Proof.
  intros B [Hlo Hhi]. pose proof (indexable_positive _ _ _ B Hlo) as Hpos.
  pose proof (raw_index_lower _ _ _ B Hlo) as H1.
  pose proof (raw_index_upper _ _ _ B Hpos Hhi) as H2.
  pose proof (Index_bracket m v) as [H3 H4].
  split.
  - assert (H : (math.MinInt16 < Index m v + 1)%Z); [|lia].
    apply lt_IZR. rewrite plus_IZR. lra.
  - assert (H : (Index m v < math.MaxInt16)%Z); [|lia].
    apply lt_IZR. lra.
Qed.

(** The value 1 is indexable by a mapping without offset, for a bucket
    ratio of at least [e] and sensible package constants. *)
Lemma one_indexable gamma m :
  built_with gamma m -> normalizedIndexOffset m = 0 ->
  exp 1 <= gamma -> minNormalFloat64 * gamma <= 1 -> 1 <= expOverflow ->
  MinIndexableValue m <= 1 <= MaxIndexableValue m.
Proof.
  intros B Hoff Hg Hmin Hexp.
  pose proof (built_with_ln_pos _ _ B) as L.
  pose proof (built_with_accuracy _ _ B) as A.
  destruct B as (G & Hm & Ha & Hlo & Hhi).
  assert (L1 : 1 <= ln gamma).
  { rewrite <- (ln_exp 1). apply ln_le_mono; [apply exp_pos | exact Hg]. }
  unfold MinIndexableValue, MaxIndexableValue. rewrite Hlo, Hhi.
  unfold computeMinIndexableValue, computeMaxIndexableValue.
  unfold math.Max, math.Min, math.Exp, math.MinInt16, math.MaxInt16.
  rewrite Hm, Hoff. split.
  - apply Rmax_lub.
    + apply Rle_trans with (exp 0); [apply exp_le_mono | rewrite exp_0; lra].
      replace ((-32768 - 0) / (1 / ln gamma)) with (-32768 * ln gamma)
        by (field; lra).
      lra.
    + replace (minNormalFloat64 * (1 + relativeAccuracy m)
               / (1 - relativeAccuracy m))
        with (minNormalFloat64 * gamma) by (rewrite Ha; field; lra).
      exact Hmin.
  - apply Rmin_glb.
    + apply Rle_trans with (exp 0); [rewrite exp_0; lra | apply exp_le_mono].
      replace ((32767 - 0) / (1 / ln gamma)) with (32767 * ln gamma)
        by (field; lra).
      lra.
    + pose proof (exp_ineq1_le expOverflow) as He.
      apply (Rmult_le_reg_r (1 + relativeAccuracy m)); [lra|].
      replace (exp expOverflow / (1 + relativeAccuracy m)
               * (1 + relativeAccuracy m))
        with (exp expOverflow) by (field; lra).
      lra.
Qed.

(** *** The claims on the mapping *)

(** C1. For a mapping built for a relative accuracy [alpha] in (0,1), and
    for every value [v] between [MinIndexableValue()] and
    [MaxIndexableValue()], the value rebuilt from the index of [v] is within
    the relative accuracy of [v]: |Value(Index(v)) / v - 1| <= alpha.  The
    same holds, with the derived accuracy, for a mapping built from a gamma
    and an index offset. *)
Theorem Index_Value_relative_error :
  (forall alpha m v,
     0 < alpha < 1 ->
     NewLogarithmicMapping alpha = Ok m ->
     MinIndexableValue m <= v <= MaxIndexableValue m ->
     Rabs (Value m (Index m v) / v - 1) <= alpha) /\
  (forall gamma indexOffset m v,
     NewLogarithmicMappingWithGamma gamma indexOffset = Ok m ->
     MinIndexableValue m <= v <= MaxIndexableValue m ->
     Rabs (Value m (Index m v) / v - 1) <= RelativeAccuracy m).
Proof.
  split.
  - intros alpha m v _ Hm [Hlo _].
    apply NewLogarithmicMapping_Ok in Hm as (_ & <- & _ & B).
    now apply (reconstruction_bound _ _ _ B).
  - intros gamma indexOffset m v Hm [Hlo _].
    apply NewLogarithmicMappingWithGamma_Ok in Hm as (_ & B).
    now apply (reconstruction_bound _ _ _ B).
Qed.

(** C2, evaluated where it fails.  With gamma 2 and index offset -1 the
    float computed for the value 1 is exactly -1: its floor is -1, and
    [Index] returns -2. *)
Theorem Index_below_floor_at_negative_integer :
  exists m,
    NewLogarithmicMappingWithGamma 2 (-1) = Ok m /\
    math.Log 1 * multiplier m + normalizedIndexOffset m = -1 /\
    Zfloor (math.Log 1 * multiplier m + normalizedIndexOffset m) = (-1)%Z /\
    Index m 1 = (-2)%Z.
Proof.
  destruct (NewLogarithmicMappingWithGamma_succeeds 2 (-1)) as [m Hm]; [lra|].
  exists m. split; [exact Hm|].
  apply NewLogarithmicMappingWithGamma_Ok in Hm as [Hoff _].
  assert (Hraw : raw_index m 1 = IZR (-1)).
  { unfold raw_index, math.Log. rewrite ln_1, Hoff. lra. }
  destruct (Index_at_negative_integer m 1 (-1) Hraw) as [H1 H2]; [lia|].
  split; [exact Hraw|]. split; [exact H2 | exact H1].
Qed.

(** C4. For a mapping built by either constructor and every value [v]
    between [MinIndexableValue()] and [MaxIndexableValue()], the index of
    [v] is a 16-bit signed integer: MinInt16 <= Index(v) <= MaxInt16. *)
Theorem Index_within_int16 :
  (forall alpha m v,
     0 < alpha < 1 ->
     NewLogarithmicMapping alpha = Ok m ->
     MinIndexableValue m <= v <= MaxIndexableValue m ->
     (math.MinInt16 <= Index m v <= math.MaxInt16)%Z) /\
  (forall gamma indexOffset m v,
     NewLogarithmicMappingWithGamma gamma indexOffset = Ok m ->
     MinIndexableValue m <= v <= MaxIndexableValue m ->
     (math.MinInt16 <= Index m v <= math.MaxInt16)%Z).
Proof.
  split.
  - intros alpha m v _ Hm Hv.
    apply NewLogarithmicMapping_Ok in Hm as (_ & _ & _ & B).
    now apply (Index_int16 _ _ _ B).
  - intros gamma indexOffset m v Hm Hv.
    apply NewLogarithmicMappingWithGamma_Ok in Hm as (_ & B).
    now apply (Index_int16 _ _ _ B).
Qed.

End LogarithmicMapping.

(** ** The sketch, over any index mapping and any store *)

Section Sketch.
Import ddsketch.
Context {M St : Type} {im : mapping.IndexMapping M} {st : store.Store St}.

Lemma AddWithCount_out_of_range (s : DDSketch M St) value count :
  value < mapping.MinIndexableValue (IndexMapping s) \/
  value > mapping.MaxIndexableValue (IndexMapping s) ->
  AddWithCount s value count = (Some ValueOutOfRange, s).
Proof.
  intros H. unfold AddWithCount.
  destruct (Rltb value _) eqn:E1; [reflexivity|].
  destruct (Rgtb value _) eqn:E2; [reflexivity|].
  apply Rltb_false in E1. apply Rgtb_false in E2. lra.
Qed.

Lemma AddWithCount_negative_count (s : DDSketch M St) value count :
  mapping.MinIndexableValue (IndexMapping s) <= value
    <= mapping.MaxIndexableValue (IndexMapping s) ->
  (count < 0)%Z ->
  AddWithCount s value count = (Some NegativeCount, s).
Proof.
  intros H Hc. unfold AddWithCount.
  destruct (Rltb value _) eqn:E1; [apply Rltb_true in E1; lra|].
  destruct (Rgtb value _) eqn:E2; [apply Rgtb_true in E2; lra|].
  destruct (count <? 0)%Z eqn:E3; [reflexivity | lia].
Qed.

Lemma AddWithCount_accepted (s : DDSketch M St) value count :
  mapping.MinIndexableValue (IndexMapping s) <= value
    <= mapping.MaxIndexableValue (IndexMapping s) ->
  (0 <= count)%Z ->
  AddWithCount s value count =
    (None,
     {| IndexMapping := IndexMapping s;
        store := store.AddWithCount (store s)
                   (mapping.Index (IndexMapping s) value) count |}).
Proof.
  intros H Hc. unfold AddWithCount.
  destruct (Rltb value _) eqn:E1; [apply Rltb_true in E1; lra|].
  destruct (Rgtb value _) eqn:E2; [apply Rgtb_true in E2; lra|].
  destruct (count <? 0)%Z eqn:E3; [lia | reflexivity].
Qed.

(** C3. [AddWithCount(value, count)] returns an error exactly when the
    value is below [MinIndexableValue()], above [MaxIndexableValue()], or
    the count is negative; on an error the sketch, and so its store and
    [GetCount()], is unchanged; without an error the new store is
    [store.AddWithCount(Index(value), count)] and nothing else changes. *)
Theorem AddWithCount_spec (s : DDSketch M St) (value : float64) (count : Z) :
  (fst (AddWithCount s value count) <> None <->
     value < mapping.MinIndexableValue (IndexMapping s) \/
     value > mapping.MaxIndexableValue (IndexMapping s) \/
     (count < 0)%Z) /\
  (fst (AddWithCount s value count) <> None ->
     snd (AddWithCount s value count) = s /\
     GetCount (snd (AddWithCount s value count)) = GetCount s) /\
  (fst (AddWithCount s value count) = None ->
     snd (AddWithCount s value count) =
       {| IndexMapping := IndexMapping s;
          store := store.AddWithCount (store s)
                     (mapping.Index (IndexMapping s) value) count |}).
Proof.
  destruct (Rlt_le_dec value (mapping.MinIndexableValue (IndexMapping s)))
    as [H1|H1].
  { rewrite AddWithCount_out_of_range by (now left). simpl.
    repeat split; auto; discriminate. }
  destruct (Rlt_le_dec (mapping.MaxIndexableValue (IndexMapping s)) value)
    as [H2|H2].
  { rewrite AddWithCount_out_of_range by (now right). simpl.
    repeat split; auto; discriminate. }
  destruct (Z_lt_le_dec count 0) as [H3|H3].
  { rewrite AddWithCount_negative_count by (auto; lra). simpl.
    repeat split; auto; discriminate. }
  rewrite AddWithCount_accepted by (auto; lra). simpl.
  repeat split; try congruence.
  intros [H|[H|H]]; [lra | lra | lia].
Qed.

(** C5. [GetValueAtQuantile(q)] fails for q < 0 and for q > 1, fails on a
    sketch whose total count is zero, and otherwise returns
    [Value(KeyAtRank(q * (TotalCount() - 1)))], the subtraction being the
    one of [int32]. *)
Theorem GetValueAtQuantile_spec (s : DDSketch M St) (q : float64) :
  (q < 0 \/ q > 1 -> GetValueAtQuantile s q = Err InvalidQuantile) /\
  (store.TotalCount (store s) = 0%Z ->
   is_Err (GetValueAtQuantile s q) = true) /\
  (0 <= q <= 1 -> store.TotalCount (store s) <> 0%Z ->
   GetValueAtQuantile s q =
     Ok (mapping.Value (IndexMapping s)
           (store.KeyAtRank (store s)
              (q * IZR (wrap_int32 (store.TotalCount (store s) - 1)))))).
Proof.
  unfold GetValueAtQuantile, GetIndexAtQuantile, GetCount.
  destruct (Rltb q 0) eqn:E1; simpl.
  { apply Rltb_true in E1. split; [|split]; [reflexivity.. | intros; lra]. }
  destruct (Rgtb q 1) eqn:E2; simpl.
  { apply Rgtb_true in E2. split; [|split]; [reflexivity.. | intros; lra]. }
  apply Rltb_false in E1. apply Rgtb_false in E2.
  destruct (store.TotalCount (store s) =? 0)%Z eqn:E3; simpl.
  - apply Z.eqb_eq in E3.
    split; [|split]; [intros; lra | reflexivity | intros; contradiction].
  - apply Z.eqb_neq in E3.
    split; [|split]; [intros; lra | intros; contradiction | reflexivity].
Qed.

(** Where the counter is a positive [int32], the rank is the plain
    product. *)
Lemma GetValueAtQuantile_rank (s : DDSketch M St) (q : float64) :
  0 <= q <= 1 -> (0 < store.TotalCount (store s) < 2147483648)%Z ->
  GetValueAtQuantile s q =
    Ok (mapping.Value (IndexMapping s)
          (store.KeyAtRank (store s)
             (q * IZR (store.TotalCount (store s) - 1)))).
Proof.
  intros Hq Hc.
  unfold GetValueAtQuantile, GetIndexAtQuantile, GetCount.
  destruct (Rltb q 0) eqn:E1; [apply Rltb_true in E1; lra|].
  destruct (Rgtb q 1) eqn:E2; [apply Rgtb_true in E2; lra|].
  destruct (store.TotalCount (store s) =? 0)%Z eqn:E3; [lia|].
  simpl. now rewrite wrap_int32_small by lia.
Qed.

(** C6. [MergeWith(other)] fails exactly when the two index mappings are
    not [Equals]; on that failure the receiver and the other sketch are
    unchanged; on success the receiver's store becomes
    [store.MergeWith(other.store)]. *)
Theorem MergeWith_spec (s other : DDSketch M St) :
  (fst (fst (MergeWith s other)) <> None <->
     mapping.Equals (IndexMapping s) (IndexMapping other) = false) /\
  (fst (fst (MergeWith s other)) <> None ->
     snd (fst (MergeWith s other)) = s /\ snd (MergeWith s other) = other) /\
  (fst (fst (MergeWith s other)) = None ->
     snd (fst (MergeWith s other)) =
       {| IndexMapping := IndexMapping s;
          store := store.MergeWith (store s) (store other) |}).
Proof.
  unfold MergeWith.
  destruct (mapping.Equals (IndexMapping s) (IndexMapping other)); simpl;
    repeat split; auto; try congruence; try discriminate.
Qed.

End Sketch.

(** ** A sketch as the constructors return it *)

Section FreshSketch.
Import logarithmic_mapping dense_store ddsketch.
Context {consts : mapping.Constants}.

Lemma empty_store_queries (m : LogarithmicMapping) (p : policy) :
  let s := NewDDSketch m {| bins := []; strategy := p |} in
  (forall q, 0 <= q <= 1 -> GetValueAtQuantile s q = Err EmptyState) /\
  GetMaxValue s = Err EmptyState /\
  GetMinValue s = Err EmptyState.
Proof.
  simpl. split; [|split]; [|reflexivity..].
  intros q Hq. unfold GetValueAtQuantile, GetIndexAtQuantile.
  destruct (Rltb q 0) eqn:E1; [apply Rltb_true in E1; lra|].
  destruct (Rgtb q 1) eqn:E2; [apply Rgtb_true in E2; lra|].
  reflexivity.
Qed.

Lemma LogUnboundedDenseDDSketch_succeeds (alpha : R) :
  0 < alpha < 1 ->
  exists m, NewLogarithmicMapping alpha = Ok m /\
            LogUnboundedDenseDDSketch alpha = Ok (NewDDSketch m NewDenseStore).
Proof.
  intros Ha. destruct (NewLogarithmicMapping_succeeds alpha Ha) as [m Hm].
  exists m. split; [exact Hm|].
  unfold LogUnboundedDenseDDSketch. now rewrite Hm.
Qed.

(** C8. On a sketch as any of the constructors returns it, with nothing
    added, [GetValueAtQuantile(q)] for every q in [0,1], [GetMaxValue()]
    and [GetMinValue()] return the EmptyState error. *)
Theorem fresh_sketch_reports_EmptyState
  (relativeAccuracy : float64) (maxNumBins : Z)
  (s : DDSketch LogarithmicMapping DenseStore) :
  LogUnboundedDenseDDSketch relativeAccuracy = Ok s \/
  NewDefaultDDSketch relativeAccuracy = Ok s \/
  LogCollapsingLowestDenseDDSketch relativeAccuracy maxNumBins = Ok s \/
  LogCollapsingHighestDenseDDSketch relativeAccuracy maxNumBins = Ok s ->
  (forall q, 0 <= q <= 1 -> GetValueAtQuantile s q = Err EmptyState) /\
  GetMaxValue s = Err EmptyState /\
  GetMinValue s = Err EmptyState.
Proof.
  unfold NewDefaultDDSketch, LogUnboundedDenseDDSketch,
    LogCollapsingLowestDenseDDSketch, LogCollapsingHighestDenseDDSketch.
  destruct (NewLogarithmicMapping relativeAccuracy) as [m|e].
  - intros [H|[H|[H|H]]]; injection H as <-; apply empty_store_queries.
  - intros [H|[H|[H|H]]]; discriminate.
Qed.

End FreshSketch.

(** ** The exact-quantile dataset *)

Section Dataset.
Import dataset.

(** *** [sort.Float64s] arranges the slice in ascending order *)

Lemma insert_Permutation x l : Permutation (x :: l) (sort.insert x l).
Proof.
  induction l as [|y l IH]; simpl; [reflexivity|].
  destruct (Rle_dec x y); [reflexivity|].
  rewrite perm_swap. now apply perm_skip.
Qed.

Lemma Float64s_Permutation l : Permutation l (sort.Float64s l).
Proof.
  induction l as [|x l IH]; simpl; [constructor|].
  rewrite <- insert_Permutation. now apply perm_skip.
Qed.

Lemma Float64s_length l : length (sort.Float64s l) = length l.
Proof. symmetry. apply Permutation_length, Float64s_Permutation. Qed.

Lemma insert_Sorted x l : Sorted Rle l -> Sorted Rle (sort.insert x l).
Proof.
  induction 1 as [|y l Hs IH Hd]; simpl; [repeat constructor|].
  destruct (Rle_dec x y) as [Hxy|Hxy].
  - constructor; [now constructor | now constructor].
  - constructor; [exact IH|].
    destruct Hd as [|z l Hyz]; simpl.
    + constructor. lra.
    + destruct (Rle_dec x z); constructor; lra.
Qed.

Lemma Float64s_Sorted l : Sorted Rle (sort.Float64s l).
Proof. induction l; simpl; [constructor | now apply insert_Sorted]. Qed.

Lemma insert_head x l : Sorted Rle (x :: l) -> sort.insert x l = x :: l.
Proof.
  intros H. destruct l as [|y l]; simpl; [reflexivity|].
  apply Sorted_inv in H as [_ H]. apply HdRel_inv in H.
  destruct (Rle_dec x y); [reflexivity | contradiction].
Qed.

(** An ascending slice is left as it is. *)
Lemma Float64s_fixpoint l : Sorted Rle l -> sort.Float64s l = l.
Proof.
  induction l as [|x l IH]; intros H; simpl; [reflexivity|].
  rewrite IH by (now apply Sorted_inv in H). now apply insert_head.
Qed.

(** *** The state invariant *)

Lemma sort_Values d :
  invariant d -> Values (sort d) = sort.Float64s (Values d).
Proof.
  intros [_ Hs]. unfold sort. destruct (sorted d) eqn:E; simpl; [|reflexivity].
  symmetry. now apply Float64s_fixpoint, Hs.
Qed.

Lemma sort_Count d : Count (sort d) = Count d.
Proof. unfold sort. now destruct (sorted d). Qed.

Lemma sort_sorted d : sorted (sort d) = true.
Proof. unfold sort. now destruct (sorted d) eqn:E. Qed.

Lemma reachable_invariant d : reachable d -> invariant d.
Proof.
  induction 1 as [|d v _ [IHc IHs]|d _ IH].
  - split; [reflexivity | discriminate].
  - split; [|discriminate]. simpl.
    rewrite length_app, Nat.add_1_r, Nat2Z.inj_succ, IHc, <- Z.add_1_r.
    apply wrap_int32_succ.
  - split.
    + rewrite sort_Count, (sort_Values d IH), Float64s_length. apply IH.
    + intros _. rewrite (sort_Values d IH). apply Float64s_Sorted.
Qed.

Lemma reachable_Merge d o : reachable d -> reachable (Merge d o).
Proof.
  unfold Merge. generalize (Values o) as l. intros l. revert d.
  induction l as [|v l IH]; intros d H; simpl; [exact H|].
  apply IH. now constructor.
Qed.

(** *** Indexing *)

Lemma slice_index_in_range (s : list R) (i : Z) :
  (0 <= i < Z.of_nat (length s))%Z ->
  slice_index s i = Returns (nth (Z.to_nat i) s 0).
Proof.
  intros H. unfold slice_index.
  destruct (i <? 0)%Z eqn:E1; [lia|].
  destruct (Z.of_nat (length s) <=? i)%Z eqn:E2; [lia|]. simpl.
  destruct (nth_error s (Z.to_nat i)) eqn:E.
  - now rewrite (nth_error_nth _ _ _ E).
  - apply nth_error_None in E. lia.
Qed.

Lemma slice_index_out_of_range (s : list R) (i : Z) :
  (i < 0 \/ Z.of_nat (length s) <= i)%Z -> slice_index s i = Panics.
Proof.
  intros H. unfold slice_index.
  destruct (i <? 0)%Z eqn:E1; [reflexivity|].
  destruct (Z.of_nat (length s) <=? i)%Z eqn:E2; [reflexivity|]. lia.
Qed.

Lemma rank_in_range (q : R) (n : Z) :
  0 <= q <= 1 -> (0 < n)%Z -> (0 <= Zfloor (q * IZR (n - 1)) < n)%Z.
Proof.
  intros Hq Hn. assert (Hn1 : 0 <= IZR (n - 1)) by (apply IZR_le; lia).
  split.
  - apply (Zfloor_lub 0). nra.
  - pose proof (Zfloor_bound (q * IZR (n - 1))) as [Hf _].
    assert (H : (Zfloor (q * IZR (n - 1)) <= n - 1)%Z); [|lia].
    apply le_IZR. nra.
Qed.

(** *** Queries *)

(** What [LowerQuantile] returns and leaves behind, on a dataset whose
    length fits the [int32] counter. *)
Lemma LowerQuantile_reachable d q :
  reachable d ->
  (0 < Z.of_nat (length (Values d)) < 2147483648)%Z ->
  0 <= q <= 1 ->
  LowerQuantile d q =
    (Returns (Num (nth (Z.to_nat (Zfloor (q * IZR (Z.of_nat (length (Values d)) - 1))))
                       (sort.Float64s (Values d)) 0)),
     sort d).
Proof.
  intros Hr Hlen Hq.
  pose proof (reachable_invariant d Hr) as Hinv.
  assert (Hc : Count d = Z.of_nat (length (Values d))).
  { destruct Hinv as [-> _]. apply wrap_int32_small. lia. }
  unfold LowerQuantile.
  destruct (Rltb q 0) eqn:E1; [apply Rltb_true in E1; lra|].
  destruct (Rgtb q 1) eqn:E2; [apply Rgtb_true in E2; lra|].
  destruct (Count d =? 0)%Z eqn:E3; [lia|]. simpl.
  rewrite sort_Count, (sort_Values d Hinv), Hc, int_of_Floor.
  rewrite wrap_int32_small by lia.
  rewrite slice_index_in_range; [reflexivity|].
  rewrite Float64s_length. apply rank_in_range; [exact Hq | lia].
Qed.

Lemma three_then_one_reachable : reachable three_then_one.
Proof. unfold three_then_one. repeat constructor. Qed.

Lemma three_then_one_sorted : sort.Float64s [3; 1] = [1; 3].
Proof. simpl. destruct (Rle_dec 3 1); [lra | reflexivity]. Qed.

(** C9 as stated fails.  After [Add(3)] and [Add(1)] the stored sequence
    is 3, 1; [Quantile(0)] returns 1, and the stored sequence is then 1, 3:
    the slice itself was sorted, not a copy. *)
Lemma Quantile_reorders_Values :
  Values three_then_one = [3; 1] /\
  fst (Quantile three_then_one 0) = Returns (Num 1) /\
  Values (snd (Quantile three_then_one 0)) = [1; 3] /\
  Values (snd (Quantile three_then_one 0)) <> Values three_then_one.
Proof.
  assert (HQ : Quantile three_then_one 0
               = (Returns (Num 1),
                  {| Values := [1; 3]; Count := 2; sorted := true |})).
  { unfold Quantile.
    rewrite (LowerQuantile_reachable _ 0 three_then_one_reachable);
      [|simpl; lia | lra].
    unfold sort. simpl Values. simpl length. rewrite three_then_one_sorted.
    rewrite Rmult_0_l, (ZfloorZ 0). reflexivity. }
  rewrite HQ. simpl. repeat split.
  intros H. injection H as H _. lra.
Qed.

(** C9, amended.  For a dataset built by the package with n values,
    0 < n < 2^31, and every q in [0,1], [Quantile(q)] returns the element at
    position floor(q*(n-1)) of the values in ascending order; the stored
    slice itself is sorted: after the query [Values] is the ascending
    arrangement of the sequence stored before, a permutation of it, and the
    counter is unchanged. *)
Theorem Quantile_sorts_in_place d q :
  reachable d ->
  (0 < Z.of_nat (length (Values d)) < 2147483648)%Z ->
  0 <= q <= 1 ->
  fst (Quantile d q) =
    Returns (Num (nth (Z.to_nat (Zfloor (q * IZR (Z.of_nat (length (Values d)) - 1))))
                      (sort.Float64s (Values d)) 0)) /\
  Values (snd (Quantile d q)) = sort.Float64s (Values d) /\
  Sorted Rle (Values (snd (Quantile d q))) /\
  Permutation (Values d) (Values (snd (Quantile d q))) /\
  Count (snd (Quantile d q)) = Count d.
Proof.
  intros Hr Hlen Hq. unfold Quantile.
  rewrite (LowerQuantile_reachable d q Hr Hlen Hq). simpl.
  rewrite (sort_Values d (reachable_invariant d Hr)).
  repeat split;
    auto using Float64s_Sorted, Float64s_Permutation, sort_Count.
Qed.

(** C10. On a dataset to which no value was added, [Min()] and [Max()]
    index the empty slice out of range and panic, whereas [Quantile]
    returns NaN for every q. *)
Theorem Min_Max_panic_on_empty d :
  reachable d -> Values d = [] ->
  fst (Min d) = Panics /\
  fst (Max d) = Panics /\
  (forall q, fst (Quantile d q) = Returns NaN).
Proof.
  intros Hr Hv. pose proof (reachable_invariant d Hr) as Hinv.
  assert (Hs : Values (sort d) = []) by (now rewrite sort_Values, Hv).
  assert (Hc : Count d = 0%Z) by (destruct Hinv as [-> _]; now rewrite Hv).
  unfold Min, Max, Quantile, LowerQuantile. simpl. rewrite Hs, Hc. simpl.
  repeat split. intros q. now rewrite orb_true_r.
Qed.

End Dataset.

(** ** Worked instances *)

Section Instances.
Import mapping logarithmic_mapping dense_store.
#[local] Existing Instance reference_constants.

(** With accuracy 1/2 the bucket ratio is 3 and the value 1 is indexable. *)
Lemma half_accuracy_indexes_one m :
  NewLogarithmicMapping (1 / 2) = Ok m ->
  MinIndexableValue m <= 1 <= MaxIndexableValue m.
Proof.
  intros Hm. apply NewLogarithmicMapping_Ok in Hm as (_ & _ & Hoff & B).
  apply (one_indexable _ _ B Hoff); simpl.
  - replace ((1 + 1 / 2) / (1 - 1 / 2)) with 3 by lra. apply exp_le_3.
  - lra.
  - lra.
Qed.

(** The multipliers for the accuracies 1/2 and 1/4 are more than 1/2
    apart, so the two mappings are not [Equals]. *)
Lemma half_quarter_incompatible m o :
  NewLogarithmicMapping (1 / 2) = Ok m ->
  NewLogarithmicMapping (1 / 4) = Ok o ->
  Equals m o = false.
Proof.
  intros Hm Ho.
  apply NewLogarithmicMapping_Ok in Hm as (_ & _ & _ & (_ & Hmul & _)).
  apply NewLogarithmicMapping_Ok in Ho as (_ & _ & _ & (_ & Hmul' & _)).
  replace ((1 + 1 / 2) / (1 - 1 / 2)) with 3 in Hmul by lra.
  replace ((1 + 1 / 4) / (1 - 1 / 4)) with (5 / 3) in Hmul' by lra.
  assert (L3 : 1 <= ln 3).
  { rewrite <- (ln_exp 1). apply ln_le_mono; [apply exp_pos | apply exp_le_3]. }
  assert (L5 : 0 < ln (5 / 3) < 2 / 3).
  { split; [rewrite <- ln_1; apply ln_increasing; lra|].
    pose proof (ln_below_chord (5 / 3)). lra. }
  assert (H3 : 1 / ln 3 <= 1).
  { apply (Rmult_le_reg_r (ln 3)); [lra|].
    replace (1 / ln 3 * ln 3) with 1 by (field; lra). lra. }
  assert (H5 : 3 / 2 < 1 / ln (5 / 3)).
  { apply (Rmult_lt_reg_r (ln (5 / 3))); [lra|].
    replace (1 / ln (5 / 3) * ln (5 / 3)) with 1 by (field; lra). lra. }
  destruct (Equals m o) eqn:E; [|reflexivity].
  apply Equals_true in E as [E _].
  rewrite Hmul, Hmul', Rabs_minus_sym in E.
  pose proof (Rle_abs (1 / ln (5 / 3) - 1 / ln 3)). lra.
Qed.

Lemma Index_Value_relative_error_witness :
  exists m,
    NewLogarithmicMapping (1 / 2) = Ok m /\
    MinIndexableValue m <= 1 <= MaxIndexableValue m /\
    Rabs (Value m (Index m 1) / 1 - 1) <= 1 / 2.
Proof.
  destruct (NewLogarithmicMapping_succeeds (1 / 2)) as [m Hm]; [lra|].
  exists m. pose proof (half_accuracy_indexes_one m Hm) as Hr.
  split; [exact Hm|]. split; [exact Hr|].
  apply (proj1 Index_Value_relative_error (1 / 2) m 1);
    [lra | exact Hm | exact Hr].
Defined.

Lemma Index_within_int16_witness :
  exists m,
    NewLogarithmicMapping (1 / 2) = Ok m /\
    MinIndexableValue m <= 1 <= MaxIndexableValue m /\
    (math.MinInt16 <= Index m 1 <= math.MaxInt16)%Z.
Proof.
  destruct (NewLogarithmicMapping_succeeds (1 / 2)) as [m Hm]; [lra|].
  exists m. pose proof (half_accuracy_indexes_one m Hm) as Hr.
  split; [exact Hm|]. split; [exact Hr|].
  apply (proj1 Index_within_int16 (1 / 2) m 1); [lra | exact Hm | exact Hr].
Defined.

Lemma AddWithCount_spec_witness :
  exists s,
    ddsketch.LogUnboundedDenseDDSketch (1 / 2) = Ok s /\
    (fst (ddsketch.AddWithCount s 0 1) <> None /\
     snd (ddsketch.AddWithCount s 0 1) = s) /\
    (fst (ddsketch.AddWithCount s 1 1) = None /\
     snd (ddsketch.AddWithCount s 1 1) =
       {| ddsketch.IndexMapping := ddsketch.IndexMapping s;
          ddsketch.store :=
            store.AddWithCount (ddsketch.store s)
              (mapping.Index (ddsketch.IndexMapping s) 1) 1 |}).
Proof.
  destruct (LogUnboundedDenseDDSketch_succeeds (1 / 2)) as (m & Hm & Hs);
    [lra|].
  set (s := ddsketch.NewDDSketch m NewDenseStore).
  exists s. split; [exact Hs|].
  pose proof (half_accuracy_indexes_one m Hm) as Hr.
  assert (Hpos : 0 < MinIndexableValue m).
  { apply NewLogarithmicMapping_Ok in Hm as (_ & _ & _ & B).
    apply (indexable_positive _ _ _ B). apply Rle_refl. }
  destruct (AddWithCount_spec s 0 1) as (Hiff0 & Hfail0 & _).
  destruct (AddWithCount_spec s 1 1) as (Hiff1 & _ & Hok1).
  assert (H0 : fst (ddsketch.AddWithCount s 0 1) <> None).
  { apply Hiff0. left. exact Hpos. }
  assert (H1 : fst (ddsketch.AddWithCount s 1 1) = None).
  { apply option_not_not_None. intros H. apply Hiff1 in H.
    simpl in H. destruct H as [H|[H|H]]; [lra | lra | lia]. }
  split; [split; [exact H0 | apply (Hfail0 H0)]
         | split; [exact H1 | apply (Hok1 H1)]].
Defined.

Lemma GetValueAtQuantile_spec_witness :
  exists s s',
    ddsketch.LogUnboundedDenseDDSketch (1 / 2) = Ok s /\
    ddsketch.Add s 1 = (None, s') /\
    ddsketch.GetValueAtQuantile s 2 = Err InvalidQuantile /\
    is_Err (ddsketch.GetValueAtQuantile s (1 / 2)) = true /\
    store.TotalCount (ddsketch.store s') = 1%Z /\
    ddsketch.GetValueAtQuantile s' (1 / 2) =
      Ok (mapping.Value (ddsketch.IndexMapping s')
            (store.KeyAtRank (ddsketch.store s')
               (1 / 2 * IZR (wrap_int32
                               (store.TotalCount (ddsketch.store s') - 1))))).
Proof.
  destruct (LogUnboundedDenseDDSketch_succeeds (1 / 2)) as (m & Hm & Hs);
    [lra|].
  pose proof (half_accuracy_indexes_one m Hm) as Hr.
  set (s := ddsketch.NewDDSketch m NewDenseStore).
  set (s' := ddsketch.NewDDSketch m
               (AddWithCount NewDenseStore (Index m 1) 1)).
  exists s, s'. split; [exact Hs|].
  split; [unfold ddsketch.Add;
          rewrite (AddWithCount_accepted s 1 1); [reflexivity | exact Hr | lia]|].
  split; [|split; [|split]].
  - apply (proj1 (GetValueAtQuantile_spec s 2)). right. lra.
  - apply (proj1 (proj2 (GetValueAtQuantile_spec s (1 / 2)))). reflexivity.
  - reflexivity.
  - apply (proj2 (proj2 (GetValueAtQuantile_spec s' (1 / 2))));
      [lra | unfold s'; simpl; unfold TotalCount, AddWithCount; simpl; lia].
Defined.

Lemma MergeWith_spec_witness :
  exists s other,
    ddsketch.LogUnboundedDenseDDSketch (1 / 2) = Ok s /\
    ddsketch.LogUnboundedDenseDDSketch (1 / 4) = Ok other /\
    (fst (fst (ddsketch.MergeWith s other)) <> None /\
     snd (fst (ddsketch.MergeWith s other)) = s /\
     snd (ddsketch.MergeWith s other) = other) /\
    (fst (fst (ddsketch.MergeWith s s)) = None /\
     snd (fst (ddsketch.MergeWith s s)) =
       {| ddsketch.IndexMapping := ddsketch.IndexMapping s;
          ddsketch.store :=
            store.MergeWith (ddsketch.store s) (ddsketch.store s) |}).
Proof.
  destruct (LogUnboundedDenseDDSketch_succeeds (1 / 2)) as (m & Hm & Hs);
    [lra|].
  destruct (LogUnboundedDenseDDSketch_succeeds (1 / 4)) as (o & Ho & Hso);
    [lra|].
  set (s := ddsketch.NewDDSketch m NewDenseStore).
  set (other := ddsketch.NewDDSketch o NewDenseStore).
  exists s, other. split; [exact Hs|]. split; [exact Hso|].
  destruct (MergeWith_spec s other) as (Hiff & Hfail & _).
  destruct (MergeWith_spec s s) as (Hiff' & _ & Hok).
  assert (H0 : fst (fst (ddsketch.MergeWith s other)) <> None).
  { apply Hiff. exact (half_quarter_incompatible m o Hm Ho). }
  assert (H1 : fst (fst (ddsketch.MergeWith s s)) = None).
  { apply option_not_not_None. intros H. apply Hiff' in H. simpl in H.
    pose proof (Equals_refl m). congruence. }
  split; [split; [exact H0 | exact (Hfail H0)]
         | split; [exact H1 | exact (Hok H1)]].
Defined.

Lemma fresh_sketch_reports_EmptyState_witness :
  exists s,
    ddsketch.LogUnboundedDenseDDSketch (1 / 2) = Ok s /\
    ddsketch.GetValueAtQuantile s (1 / 2) = Err EmptyState /\
    ddsketch.GetMaxValue s = Err EmptyState /\
    ddsketch.GetMinValue s = Err EmptyState.
Proof.
  destruct (LogUnboundedDenseDDSketch_succeeds (1 / 2)) as (m & Hm & Hs);
    [lra|].
  exists (ddsketch.NewDDSketch m NewDenseStore). split; [exact Hs|].
  destruct (fresh_sketch_reports_EmptyState (1 / 2) 0
              (ddsketch.NewDDSketch m NewDenseStore) (or_introl Hs))
    as (Hq & Hmax & Hmin).
  split; [apply Hq; lra | split; [exact Hmax | exact Hmin]].
Defined.

Lemma Quantile_sorts_in_place_witness :
  dataset.reachable dataset.three_then_one /\
  fst (dataset.Quantile dataset.three_then_one (1 / 2)) =
    dataset.Returns
      (Num (nth (Z.to_nat (Zfloor (1 / 2 * IZR (2 - 1))))
              (sort.Float64s [3; 1]) 0)) /\
  dataset.Values (snd (dataset.Quantile dataset.three_then_one (1 / 2)))
  = sort.Float64s [3; 1] /\
  Sorted Rle
    (dataset.Values (snd (dataset.Quantile dataset.three_then_one (1 / 2)))) /\
  Permutation [3; 1]
    (dataset.Values (snd (dataset.Quantile dataset.three_then_one (1 / 2)))) /\
  dataset.Count (snd (dataset.Quantile dataset.three_then_one (1 / 2))) = 2%Z.
Proof.
  split; [exact three_then_one_reachable|].
  apply (Quantile_sorts_in_place dataset.three_then_one (1 / 2));
    [exact three_then_one_reachable | simpl; lia | lra].
Defined.

Lemma Min_Max_panic_on_empty_witness :
  dataset.reachable dataset.NewDataset /\
  fst (dataset.Min dataset.NewDataset) = dataset.Panics /\
  fst (dataset.Max dataset.NewDataset) = dataset.Panics /\
  (forall q, fst (dataset.Quantile dataset.NewDataset q)
             = dataset.Returns NaN).
Proof.
  split; [constructor|].
  apply (Min_Max_panic_on_empty dataset.NewDataset);
    [constructor | reflexivity].
Defined.

End Instances.


(** ** More on the logarithmic mapping *)

Section MappingExtras.
Import mapping logarithmic_mapping.
Context {consts : Constants}.

Lemma constructed_built_with alpha gamma indexOffset m :
  NewLogarithmicMapping alpha = Ok m \/
  NewLogarithmicMappingWithGamma gamma indexOffset = Ok m ->
  exists g, built_with g m.
Proof.
  intros [H|H].
  - apply NewLogarithmicMapping_Ok in H as (_ & _ & _ & B). eauto.
  - apply NewLogarithmicMappingWithGamma_Ok in H as (_ & B). eauto.
Qed.

Lemma built_with_multiplier_pos gamma m :
  built_with gamma m -> 0 < multiplier m.
Proof.
  intros B. pose proof (built_with_ln_pos _ _ B) as L.
  destruct B as (_ & -> & _). apply Rdiv_lt_0_compat; lra.
Qed.

Lemma built_with_gamma gamma m :
  built_with gamma m ->
  (1 + relativeAccuracy m) / (1 - relativeAccuracy m) = gamma.
Proof. intros (G & _ & -> & _). field. split; lra. Qed.

(** X1. [NewLogarithmicMapping] returns the InvalidAccuracy error when the
    accuracy is at most 0 or at least 1; for an accuracy strictly between 0
    and 1 it returns a mapping that keeps that accuracy, has index offset 0
    and a positive multiplier, 1 / ln((1+alpha)/(1-alpha)). *)
Theorem NewLogarithmicMapping_validation alpha :
  (alpha <= 0 \/ 1 <= alpha ->
   NewLogarithmicMapping alpha = Err InvalidAccuracy) /\
  (0 < alpha < 1 ->
   exists m,
     NewLogarithmicMapping alpha = Ok m /\
     RelativeAccuracy m = alpha /\
     normalizedIndexOffset m = 0 /\
     multiplier m = 1 / ln ((1 + alpha) / (1 - alpha)) /\
     0 < multiplier m).
Proof.
  split.
  - intros H. apply NewLogarithmicMapping_rejects. lra.
  - intros H. destruct (NewLogarithmicMapping_succeeds alpha H) as [m Hm].
    exists m. split; [exact Hm|].
    apply NewLogarithmicMapping_Ok in Hm as (_ & Ha & Hoff & B).
    pose proof (built_with_multiplier_pos _ _ B) as Hp.
    destruct B as (_ & Hmul & _). auto.
Qed.





Lemma raw_index_Value gamma m i :
  built_with gamma m ->
  raw_index m (Value m i)
  = IZR i + ln (1 + relativeAccuracy m) / ln gamma.
Proof.
  intros B. pose proof (built_with_ln_pos _ _ B) as L.
  pose proof (built_with_accuracy _ _ B) as A.
  destruct B as (G & Hm & _). unfold raw_index, Value, math.Log, math.Exp.
  rewrite ln_mult by (try apply exp_pos; lra). rewrite ln_exp, Hm.
  field. lra.
Qed.

Lemma accuracy_offset_fraction gamma m :
  built_with gamma m ->
  0 < ln (1 + relativeAccuracy m) / ln gamma < 1.
Proof.
  intros B. pose proof (built_with_ln_pos _ _ B) as L.
  pose proof (built_with_accuracy _ _ B) as A.
  pose proof (built_with_gamma _ _ B) as Hg.
  assert (H1 : 0 < ln (1 + relativeAccuracy m)).
  { rewrite <- ln_1. apply ln_increasing; lra. }
  assert (H2 : ln (1 + relativeAccuracy m) < ln gamma).
  { apply ln_increasing; [lra|]. rewrite <- Hg.
    apply (Rmult_lt_reg_r (1 - relativeAccuracy m)); [lra|].
    replace ((1 + relativeAccuracy m) / (1 - relativeAccuracy m)
             * (1 - relativeAccuracy m))
      with (1 + relativeAccuracy m) by (field; lra).
    nra. }
  split; [apply Rdiv_lt_0_compat; lra | apply quotient_below_one; lra].
Qed.

Lemma Index_Value_built gamma m i : built_with gamma m -> Index m (Value m i) = i.
Proof.
  intros B. pose proof (raw_index_Value _ _ i B) as Hr.
  pose proof (accuracy_offset_fraction _ _ B) as Hd.
  destruct (Rle_lt_dec 0 (raw_index m (Value m i))) as [H|H].
  - rewrite (Index_nonneg_raw _ _ H). apply Zfloor_eq. lra.
  - rewrite (Index_neg_raw _ _ H).
    rewrite (Zceil_eq (i + 1)); [lia|]. rewrite plus_IZR. lra.
Qed.

(** X5. Round trip: for a mapping built for an accuracy in (0,1), or from a
    gamma above 1, and every index i whose representative [Value(i)] lies
    between [MinIndexableValue()] and [MaxIndexableValue()], the
    representative is mapped back to its bucket: Index(Value(i)) = i. *)
Theorem Index_Value_roundtrip alpha gamma indexOffset m i :
  0 < alpha < 1 /\ NewLogarithmicMapping alpha = Ok m \/
  1 < gamma /\ NewLogarithmicMappingWithGamma gamma indexOffset = Ok m ->
  MinIndexableValue m <= Value m i <= MaxIndexableValue m ->
  Index m (Value m i) = i.
Proof.
  intros H _.
  assert (H' : NewLogarithmicMapping alpha = Ok m \/
               NewLogarithmicMappingWithGamma gamma indexOffset = Ok m)
    by tauto.
  destruct (constructed_built_with _ _ _ _ H') as [g B].
  exact (Index_Value_built g m i B).
Qed.


Lemma MinIndexableValue_positive gamma m :
  built_with gamma m -> 0 < MinIndexableValue m.
Proof. intros B. apply (indexable_positive _ _ _ B). apply Rle_refl. Qed.

End MappingExtras.

(** ** More on the sketch *)

Section SketchExtras.
Import ddsketch.
Context {M St : Type} {im : mapping.IndexMapping M} {st : store.Store St}.

(** X7. [Add(value)] fails exactly on a value outside
    [MinIndexableValue(), MaxIndexableValue()], with ValueOutOfRange and the
    sketch unchanged; otherwise it adds a count of one to the store at
    Index(value) and reports no error. *)
Theorem Add_spec (s : DDSketch M St) (value : float64) :
  (value < mapping.MinIndexableValue (IndexMapping s) \/
   value > mapping.MaxIndexableValue (IndexMapping s) ->
   Add s value = (Some ValueOutOfRange, s)) /\
  (mapping.MinIndexableValue (IndexMapping s) <= value
     <= mapping.MaxIndexableValue (IndexMapping s) ->
   Add s value =
     (None,
      {| IndexMapping := IndexMapping s;
         store := store.AddWithCount (store s)
                    (mapping.Index (IndexMapping s) value) 1 |})).
Proof.
  unfold Add. split; intros H.
  - now apply AddWithCount_out_of_range.
  - apply AddWithCount_accepted; [exact H | lia].
Qed.

Lemma GetValuesAtQuantiles_Ok (s : DDSketch M St) qs vs :
  GetValuesAtQuantiles s qs = Ok vs <->
  Forall2 (fun q v => GetValueAtQuantile s q = Ok v) qs vs.
Proof.
  revert vs. induction qs as [|q qs IH]; intros vs; simpl.
  - split.
    + intros H. injection H as <-. constructor.
    + intros H. inversion H. reflexivity.
  - destruct (GetValueAtQuantile s q) as [v|e] eqn:Eq.
    + destruct (GetValuesAtQuantiles s qs) as [ws|e] eqn:Er.
      * split.
        -- intros H. injection H as <-. constructor; [exact Eq|].
           now apply IH.
        -- intros H. inversion H as [|q' v' qs' vs' Hq Hrest]; subst.
           apply IH in Hrest. congruence.
      * split; [discriminate|].
        intros H. inversion H as [|q' v' qs' vs' Hq Hrest]; subst.
        apply IH in Hrest. discriminate.
    + split; [discriminate|].
      intros H. inversion H as [|q' v' qs' vs' Hq Hrest]; subst.
      congruence.
Qed.

Lemma GetValuesAtQuantiles_Err (s : DDSketch M St) qs e :
  GetValuesAtQuantiles s qs = Err e <->
  exists pre q post,
    qs = pre ++ q :: post /\
    (forall p, In p pre -> is_Err (GetValueAtQuantile s p) = false) /\
    GetValueAtQuantile s q = Err e.
Proof.
  induction qs as [|q qs IH]; simpl.
  - split; [discriminate|].
    intros (pre & q & post & H & _). destruct pre; discriminate.
  - destruct (GetValueAtQuantile s q) as [v|e'] eqn:Eq.
    + destruct (GetValuesAtQuantiles s qs) as [ws|e''] eqn:Er.
      * split; [discriminate|].
        intros (pre & q' & post & H & Hpre & Hq').
        destruct pre as [|p pre]; simpl in H; injection H as -> ->.
        -- congruence.
        -- assert (HH : Ok ws = Err e :> result (list R)); [|discriminate].
           apply IH. exists pre, q', post.
           split; [reflexivity|]. split; [|exact Hq'].
           intros p' Hp'. apply Hpre. now right.
      * split.
        -- intros H. injection H as ->.
           destruct (proj1 IH eq_refl) as (pre & q' & post & -> & Hpre & Hq').
           exists (q :: pre), q', post. split; [reflexivity|].
           split; [|exact Hq']. intros p [<-|Hp]; [now rewrite Eq | auto].
        -- intros (pre & q' & post & H & Hpre & Hq').
           destruct pre as [|p pre]; simpl in H; injection H as -> ->.
           ++ congruence.
           ++ apply IH. exists pre, q', post.
              split; [reflexivity|]. split; [|exact Hq'].
              intros p' Hp'. apply Hpre. now right.
    + split.
      * intros H. injection H as ->. exists [], q, qs.
        split; [reflexivity|]. split; [intros p []|exact Eq].
      * intros (pre & q' & post & H & Hpre & Hq').
        destruct pre as [|p pre]; simpl in H; injection H as -> ->.
        -- congruence.
        -- specialize (Hpre p (or_introl eq_refl)). rewrite Eq in Hpre.
           discriminate.
Qed.

(** X10. [GetValuesAtQuantiles] returns values exactly when every quantile
    of the sequence has a value, and then the values in order, one per
    quantile; it returns an error exactly when some quantile fails, and the
    error is that of the first quantile that fails. *)
Theorem GetValuesAtQuantiles_spec (s : DDSketch M St) (qs : list float64) :
  (forall vs,
     GetValuesAtQuantiles s qs = Ok vs <->
     Forall2 (fun q v => GetValueAtQuantile s q = Ok v) qs vs) /\
  (forall e,
     GetValuesAtQuantiles s qs = Err e <->
     exists pre q post,
       qs = pre ++ q :: post /\
       (forall p, In p pre -> is_Err (GetValueAtQuantile s p) = false) /\
       GetValueAtQuantile s q = Err e).
Proof.
  split; [intros vs; apply GetValuesAtQuantiles_Ok
         | intros e; apply GetValuesAtQuantiles_Err].
Qed.

End SketchExtras.

Section LogSketchExtras.
Import logarithmic_mapping ddsketch.
Context {consts : mapping.Constants} {St : Type} {st : store.Store St}.

(** X8. On a sketch whose mapping [NewLogarithmicMapping] built for an
    accuracy in (0,1), [MinIndexableValue()] is positive, so every value
    that is zero or negative is rejected, whatever the count, with
    ValueOutOfRange, and the sketch is left unchanged. *)
Theorem AddWithCount_rejects_nonpositive
  alpha (s : DDSketch LogarithmicMapping St) value count :
  0 < alpha < 1 ->
  NewLogarithmicMapping alpha = Ok (IndexMapping s) ->
  value <= 0 ->
  0 < MinIndexableValue (IndexMapping s) /\
  AddWithCount s value count = (Some ValueOutOfRange, s).
Proof.
  intros _ H Hv.
  apply NewLogarithmicMapping_Ok in H as (_ & _ & _ & B).
  pose proof (MinIndexableValue_positive _ _ B) as Hp.
  split; [exact Hp|].
  apply AddWithCount_out_of_range. left. simpl. lra.
Qed.

(** X9. On a sketch whose mapping was built for an accuracy in (0,1), or
    from a gamma above 1, [AddWithCount] of a value between
    [MinIndexableValue()] and [MaxIndexableValue()] with a count that is not
    negative reports no error, and the index it hands to the store is
    within the 16-bit signed range. *)
Theorem accepted_index_within_int16
  alpha gamma indexOffset (s : DDSketch LogarithmicMapping St) value count :
  0 < alpha < 1 /\ NewLogarithmicMapping alpha = Ok (IndexMapping s) \/
  1 < gamma /\
  NewLogarithmicMappingWithGamma gamma indexOffset = Ok (IndexMapping s) ->
  MinIndexableValue (IndexMapping s) <= value
    <= MaxIndexableValue (IndexMapping s) ->
  (0 <= count)%Z ->
  (math.MinInt16 <= Index (IndexMapping s) value <= math.MaxInt16)%Z /\
  AddWithCount s value count =
    (None,
     {| IndexMapping := IndexMapping s;
        store := store.AddWithCount (store s)
                   (Index (IndexMapping s) value) count |}).
Proof.
  intros H Hv Hc.
  assert (H' : NewLogarithmicMapping alpha = Ok (IndexMapping s) \/
               NewLogarithmicMappingWithGamma gamma indexOffset
               = Ok (IndexMapping s)) by tauto.
  destruct (constructed_built_with _ _ _ _ H') as [g B].
  split; [exact (Index_int16 _ _ _ B Hv)|].
  exact (AddWithCount_accepted s value count Hv Hc).
Qed.

End LogSketchExtras.

(** ** The sketch constructors *)

Section ConstructorExtras.
Import logarithmic_mapping dense_store ddsketch.
Context {consts : mapping.Constants}.

(** X12. The four sketch constructors fail with InvalidAccuracy when the
    accuracy is at most 0 or at least 1, and otherwise return a sketch that
    holds the mapping of [NewLogarithmicMapping] for that accuracy and the
    new store of their kind. *)
Theorem sketch_constructors_validation (alpha : float64) (maxNumBins : Z) :
  (alpha <= 0 \/ 1 <= alpha ->
   LogUnboundedDenseDDSketch alpha = Err InvalidAccuracy /\
   NewDefaultDDSketch alpha = Err InvalidAccuracy /\
   LogCollapsingLowestDenseDDSketch alpha maxNumBins = Err InvalidAccuracy /\
   LogCollapsingHighestDenseDDSketch alpha maxNumBins = Err InvalidAccuracy) /\
  (0 < alpha < 1 ->
   exists m,
     NewLogarithmicMapping alpha = Ok m /\
     LogUnboundedDenseDDSketch alpha = Ok (NewDDSketch m NewDenseStore) /\
     NewDefaultDDSketch alpha = Ok (NewDDSketch m NewDenseStore) /\
     LogCollapsingLowestDenseDDSketch alpha maxNumBins
     = Ok (NewDDSketch m (NewCollapsingLowestDenseStore maxNumBins)) /\
     LogCollapsingHighestDenseDDSketch alpha maxNumBins
     = Ok (NewDDSketch m (NewCollapsingHighestDenseStore maxNumBins))).
Proof.
  unfold NewDefaultDDSketch, LogUnboundedDenseDDSketch,
    LogCollapsingLowestDenseDDSketch, LogCollapsingHighestDenseDDSketch.
  split; intros H.
  - rewrite NewLogarithmicMapping_rejects by lra. auto.
  - destruct (NewLogarithmicMapping_succeeds alpha H) as [m Hm].
    exists m. rewrite Hm. auto.
Qed.

End ConstructorExtras.

(** ** More on the dataset *)

Section DatasetExtras.
Import dataset.

Lemma Rle_StronglySorted l : Sorted Rle l -> StronglySorted Rle l.
Proof. apply Sorted_StronglySorted. intros x y z. apply Rle_trans. Qed.

Lemma StronglySorted_nth_le l :
  StronglySorted Rle l ->
  forall i j, (i <= j < length l)%nat -> nth i l 0 <= nth j l 0.
Proof.
  induction 1 as [|x l Hs IH Hall]; intros i j Hij; simpl in *; [lia|].
  destruct i as [|i]; destruct j as [|j]; try lia.
  - apply Rle_refl.
  - rewrite Forall_forall in Hall. apply Hall, nth_In. lia.
  - apply IH. lia.
Qed.

Lemma Sorted_nth_le l i j :
  Sorted Rle l -> (i <= j < length l)%nat -> nth i l 0 <= nth j l 0.
Proof. intros H. now apply StronglySorted_nth_le, Rle_StronglySorted. Qed.

Lemma StronglySorted_Permutation_eq l1 :
  StronglySorted Rle l1 ->
  forall l2, StronglySorted Rle l2 -> Permutation l1 l2 -> l1 = l2.
Proof.
  induction 1 as [|a l1 Hs1 IH Ha]; intros l2 Hs2 Hp.
  - apply Permutation_nil in Hp. now subst.
  - destruct l2 as [|b l2]; [apply Permutation_sym, Permutation_nil in Hp; discriminate|].
    inversion Hs2 as [|b' l2' Hs2' Hb]; subst.
    rewrite Forall_forall in Ha, Hb.
    assert (Hab : a = b).
    { assert (Hin1 : In a (b :: l2)) by (eapply Permutation_in; [exact Hp | now left]).
      assert (Hin2 : In b (a :: l1))
        by (eapply Permutation_in; [apply Permutation_sym; exact Hp | now left]).
      destruct Hin1 as [->|Hin1]; [reflexivity|].
      destruct Hin2 as [->|Hin2]; [reflexivity|].
      apply Rle_antisym; auto. }
    subst b. f_equal. apply IH; [exact Hs2'|].
    now apply Permutation_cons_inv in Hp.
Qed.

Lemma Float64s_Permutation_eq l1 l2 :
  Permutation l1 l2 -> sort.Float64s l1 = sort.Float64s l2.
Proof.
  intros Hp. apply StronglySorted_Permutation_eq.
  - apply Rle_StronglySorted, Float64s_Sorted.
  - apply Rle_StronglySorted, Float64s_Sorted.
  - rewrite <- (Float64s_Permutation l1), <- (Float64s_Permutation l2).
    exact Hp.
Qed.

Lemma int_of_Ceil (x : R) : int_of_float64 (math.Ceil x) = Zceil x.
Proof.
  unfold math.Ceil, int_of_float64.
  destruct (Rle_dec 0 (IZR (Zceil x))).
  - apply ZfloorZ.
  - unfold Zceil at 1. rewrite <- opp_IZR, ZfloorZ. lia.
Qed.

Lemma Zfloor_le_Zceil (x : R) : (Zfloor x <= Zceil x)%Z.
Proof. apply le_IZR. pose proof (Zfloor_ceil_bound x). lra. Qed.

Lemma upper_rank_in_range (q : R) (n : Z) :
  0 <= q <= 1 -> (0 < n)%Z -> (0 <= Zceil (q * IZR (n - 1)) < n)%Z.
Proof.
  intros Hq Hn. assert (Hn1 : 0 <= IZR (n - 1)) by (apply IZR_le; lia).
  pose proof (Zceil_bound (q * IZR (n - 1))) as [Hc1 Hc2].
  split.
  - pose proof (Zfloor_le_Zceil (q * IZR (n - 1))).
    pose proof (Zfloor_lub 0 (q * IZR (n - 1))) as H0.
    assert (0 <= Zfloor (q * IZR (n - 1)))%Z by (apply H0; simpl; nra). lia.
  - assert (H : (Zceil (q * IZR (n - 1)) - 1 < n - 1)%Z); [|lia].
    apply lt_IZR. rewrite minus_IZR. simpl. nra.
Qed.

Lemma UpperQuantile_reachable d q :
  reachable d ->
  (0 < Z.of_nat (length (Values d)) < 2147483648)%Z ->
  0 <= q <= 1 ->
  UpperQuantile d q =
    (Returns (Num (nth (Z.to_nat (Zceil (q * IZR (Z.of_nat (length (Values d)) - 1))))
                       (sort.Float64s (Values d)) 0)),
     sort d).
Proof.
  intros Hr Hlen Hq.
  pose proof (reachable_invariant d Hr) as Hinv.
  assert (Hc : Count d = Z.of_nat (length (Values d))).
  { destruct Hinv as [-> _]. apply wrap_int32_small. lia. }
  unfold UpperQuantile.
  destruct (Rltb q 0) eqn:E1; [apply Rltb_true in E1; lra|].
  destruct (Rgtb q 1) eqn:E2; [apply Rgtb_true in E2; lra|].
  destruct (Count d =? 0)%Z eqn:E3; [lia|]. simpl.
  rewrite sort_Count, (sort_Values d Hinv), Hc, int_of_Ceil.
  rewrite wrap_int32_small by lia.
  rewrite slice_index_in_range; [reflexivity|].
  rewrite Float64s_length. apply upper_rank_in_range; [exact Hq | lia].
Qed.

Lemma Min_reachable d :
  reachable d -> Values d <> [] ->
  Min d = (Returns (nth 0 (sort.Float64s (Values d)) 0), sort d).
Proof.
  intros Hr Hne. unfold Min.
  rewrite (sort_Values d (reachable_invariant d Hr)).
  rewrite slice_index_in_range; [reflexivity|].
  rewrite Float64s_length. destruct (Values d); [contradiction | simpl; lia].
Qed.

Lemma Max_reachable d :
  reachable d -> Values d <> [] ->
  Max d = (Returns (nth (length (Values d) - 1) (sort.Float64s (Values d)) 0),
           sort d).
Proof.
  intros Hr Hne. unfold Max.
  rewrite (sort_Values d (reachable_invariant d Hr)), Float64s_length.
  assert (Hlen : (0 < length (Values d))%nat)
    by (destruct (Values d); [contradiction | simpl; lia]).
  rewrite slice_index_in_range by (rewrite Float64s_length; lia).
  do 3 f_equal. lia.
Qed.

Lemma Merge_Values d o : Values (Merge d o) = Values d ++ Values o.
Proof.
  unfold Merge. generalize (Values o) as l. intros l. revert d.
  induction l as [|v l IH]; intros d; simpl.
  - now rewrite app_nil_r.
  - rewrite IH. simpl. now rewrite <- app_assoc.
Qed.

Lemma Merge_sorted d o : Values o <> [] -> sorted (Merge d o) = false.
Proof.
  unfold Merge. generalize (Values o) as l. intros l. revert d.
  induction l as [|v l IH]; intros d H; [contradiction|]. simpl.
  destruct l as [|w l]; [reflexivity|]. apply IH. discriminate.
Qed.

(** X13. Every dataset the package can build keeps its counter equal to
    the length of [Values] as an int32 (and equal to the length itself
    below 2^31), and has its [sorted] flag set only when [Values] is in
    ascending order. *)
Theorem Dataset_invariant d :
  reachable d ->
  Count d = wrap_int32 (Z.of_nat (length (Values d))) /\
  ((Z.of_nat (length (Values d)) < 2147483648)%Z ->
   Count d = Z.of_nat (length (Values d))) /\
  (sorted d = true -> Sorted Rle (Values d)).
Proof.
  intros Hr. destruct (reachable_invariant d Hr) as [Hc Hs].
  split; [exact Hc|]. split; [|exact Hs].
  intros Hlen. rewrite Hc. apply wrap_int32_small. lia.
Qed.

(** X14. [Merge(o)] appends the values of [o] to the receiver's in their
    order, makes the counter the int32 sum of the two lengths, clears the
    [sorted] flag when [o] has values, and leaves the receiver as it is
    when [o] has none. *)
Theorem Merge_spec d o :
  reachable d ->
  reachable (Merge d o) /\
  Values (Merge d o) = Values d ++ Values o /\
  Count (Merge d o)
  = wrap_int32 (Z.of_nat (length (Values d)) + Z.of_nat (length (Values o))) /\
  (Values o <> [] -> sorted (Merge d o) = false) /\
  (Values o = [] -> Merge d o = d).
Proof.
  intros Hr. pose proof (reachable_Merge d o Hr) as Hm.
  split; [exact Hm|]. split; [apply Merge_Values|]. split; [|split].
  - destruct (reachable_invariant _ Hm) as [-> _].
    now rewrite Merge_Values, length_app, Nat2Z.inj_add.
  - apply Merge_sorted.
  - intros H. unfold Merge. now rewrite H.
Qed.

(** X15. On a dataset with at least one value, [Min()] and [Max()] return
    stored values, and every stored value lies between them. *)
Theorem Min_Max_extremes d :
  reachable d -> Values d <> [] ->
  exists lo hi,
    fst (Min d) = Returns lo /\ fst (Max d) = Returns hi /\
    In lo (Values d) /\ In hi (Values d) /\
    (forall x, In x (Values d) -> lo <= x <= hi).
Proof.
  intros Hr Hne.
  assert (Hlen : (0 < length (Values d))%nat)
    by (destruct (Values d); [contradiction | simpl; lia]).
  pose proof (Float64s_Permutation (Values d)) as Hp.
  pose proof (Float64s_Sorted (Values d)) as Hs.
  pose proof (Float64s_length (Values d)) as Hl.
  exists (nth 0 (sort.Float64s (Values d)) 0),
         (nth (length (Values d) - 1) (sort.Float64s (Values d)) 0).
  rewrite (Min_reachable d Hr Hne), (Max_reachable d Hr Hne). simpl.
  split; [reflexivity|]. split; [reflexivity|].
  split; [|split].
  - apply (Permutation_in _ (Permutation_sym Hp)), nth_In. lia.
  - apply (Permutation_in _ (Permutation_sym Hp)), nth_In. lia.
  - intros x Hx. apply (Permutation_in _ Hp) in Hx.
    destruct (In_nth _ _ 0 Hx) as (k & Hk & <-).
    split; apply Sorted_nth_le; auto; lia.
Qed.

(** X16. On a dataset with n values, 0 < n < 2^31, [Quantile(0)] is the
    value that [Min()] returns and [Quantile(1)] the value that [Max()]
    returns. *)
Theorem Quantile_endpoints d :
  reachable d ->
  (0 < Z.of_nat (length (Values d)) < 2147483648)%Z ->
  exists lo hi,
    fst (Min d) = Returns lo /\ fst (Max d) = Returns hi /\
    fst (Quantile d 0) = Returns (Num lo) /\
    fst (Quantile d 1) = Returns (Num hi).
Proof.
  intros Hr Hlen.
  assert (Hne : Values d <> []) by (destruct (Values d); [simpl in Hlen; lia | discriminate]).
  exists (nth 0 (sort.Float64s (Values d)) 0),
         (nth (length (Values d) - 1) (sort.Float64s (Values d)) 0).
  rewrite (Min_reachable d Hr Hne), (Max_reachable d Hr Hne).
  unfold Quantile.
  rewrite !(LowerQuantile_reachable d _ Hr Hlen) by lra. simpl.
  split; [reflexivity|]. split; [reflexivity|].
  rewrite Rmult_0_l, (ZfloorZ 0), Rmult_1_l, ZfloorZ.
  split; [reflexivity|]. do 3 f_equal. lia.
Qed.

(** X17. On a dataset with n values, 0 < n < 2^31, and q in [0,1],
    [LowerQuantile(q)] and [UpperQuantile(q)] both return a value, the lower
    one is at most the upper one, and they coincide when q*(n-1) is an
    integer. *)
Theorem LowerQuantile_le_UpperQuantile d q :
  reachable d ->
  (0 < Z.of_nat (length (Values d)) < 2147483648)%Z ->
  0 <= q <= 1 ->
  exists lo hi,
    fst (LowerQuantile d q) = Returns (Num lo) /\
    fst (UpperQuantile d q) = Returns (Num hi) /\
    lo <= hi /\
    (q * IZR (Z.of_nat (length (Values d)) - 1)
     = IZR (Zfloor (q * IZR (Z.of_nat (length (Values d)) - 1))) ->
     lo = hi).
Proof.
  intros Hr Hlen Hq.
  rewrite (LowerQuantile_reachable d q Hr Hlen Hq).
  rewrite (UpperQuantile_reachable d q Hr Hlen Hq). simpl.
  set (r := q * IZR (Z.of_nat (length (Values d)) - 1)).
  pose proof (rank_in_range q _ Hq (proj1 Hlen)) as Hf.
  pose proof (upper_rank_in_range q _ Hq (proj1 Hlen)) as Hc.
  fold r in Hf, Hc.
  do 2 eexists. split; [reflexivity|]. split; [reflexivity|]. split.
  - apply Sorted_nth_le; [apply Float64s_Sorted|].
    rewrite Float64s_length. pose proof (Zfloor_le_Zceil r). lia.
  - intros Hint. f_equal. f_equal. unfold Zceil.
    rewrite Hint, <- opp_IZR, !ZfloorZ. lia.
Qed.

(** X18. [Quantile] is non-decreasing in q: on a dataset with n values,
    0 < n < 2^31, and 0 <= q1 <= q2 <= 1, Quantile(q1) <= Quantile(q2). *)
Theorem Quantile_monotone d q1 q2 :
  reachable d ->
  (0 < Z.of_nat (length (Values d)) < 2147483648)%Z ->
  0 <= q1 -> q1 <= q2 -> q2 <= 1 ->
  exists x1 x2,
    fst (Quantile d q1) = Returns (Num x1) /\
    fst (Quantile d q2) = Returns (Num x2) /\
    x1 <= x2.
Proof.
  intros Hr Hlen H1 H12 H2. unfold Quantile.
  rewrite !(LowerQuantile_reachable d _ Hr Hlen) by lra. simpl.
  do 2 eexists. split; [reflexivity|]. split; [reflexivity|].
  assert (Hn : 0 <= IZR (Z.of_nat (length (Values d)) - 1))
    by (apply IZR_le; lia).
  pose proof (rank_in_range q1 _ (conj H1 (Rle_trans _ _ _ H12 H2)) (proj1 Hlen)).
  pose proof (rank_in_range q2 _ (conj (Rle_trans _ _ _ H1 H12) H2) (proj1 Hlen)).
  apply Sorted_nth_le; [apply Float64s_Sorted|].
  rewrite Float64s_length.
  assert (Zfloor (q1 * IZR (Z.of_nat (length (Values d)) - 1))
          <= Zfloor (q2 * IZR (Z.of_nat (length (Values d)) - 1)))%Z
    by (apply Zfloor_le; nra).
  lia.
Qed.

Lemma LowerQuantile_multiset d1 d2 q :
  reachable d1 -> reachable d2 ->
  Permutation (Values d1) (Values d2) ->
  (Z.of_nat (length (Values d1)) < 2147483648)%Z ->
  fst (LowerQuantile d1 q) = fst (LowerQuantile d2 q).
Proof.
  intros Hr1 Hr2 Hp Hlen.
  pose proof (Permutation_length Hp) as Hl.
  destruct (reachable_invariant d1 Hr1) as [Hc1 _].
  destruct (reachable_invariant d2 Hr2) as [Hc2 _].
  destruct (Rlt_le_dec q 0) as [Hq0|Hq0].
  { unfold LowerQuantile. now rewrite (proj2 (Rltb_true q 0) Hq0). }
  destruct (Rlt_le_dec 1 q) as [Hq1|Hq1].
  { unfold LowerQuantile.
    now rewrite (proj2 (Rgtb_true q 1) Hq1), !orb_true_r. }
  destruct (Nat.eq_dec (length (Values d1)) 0) as [Hz|Hz].
  { unfold LowerQuantile.
    rewrite Hc1, Hc2, <- Hl, Hz. simpl. now rewrite !orb_true_r. }
  rewrite (LowerQuantile_reachable d1 q Hr1) by (lia || lra).
  rewrite (LowerQuantile_reachable d2 q Hr2) by (lia || lra).
  simpl. now rewrite (Float64s_Permutation_eq _ _ Hp), Hl.
Qed.

(** X19. The result of [Quantile(q)] does not depend on the order in which
    the values were added: two datasets holding the same values, in any
    order, fewer than 2^31 of them, give the same result for every q. *)
Theorem Quantile_order_independent d1 d2 q :
  reachable d1 -> reachable d2 ->
  Permutation (Values d1) (Values d2) ->
  (Z.of_nat (length (Values d1)) < 2147483648)%Z ->
  fst (Quantile d1 q) = fst (Quantile d2 q).
Proof. intros. unfold Quantile. now apply LowerQuantile_multiset. Qed.

(** X20. After a query the dataset is stable: a second [Quantile] leaves
    the state as the first left it, and returns what it would have returned
    on the dataset before the first query. *)
Theorem Quantile_repeatable d q q' :
  reachable d ->
  (0 < Z.of_nat (length (Values d)) < 2147483648)%Z ->
  0 <= q <= 1 ->
  snd (Quantile (snd (Quantile d q)) q') = snd (Quantile d q) /\
  fst (Quantile (snd (Quantile d q)) q') = fst (Quantile d q').
Proof.
  intros Hr Hlen Hq. unfold Quantile.
  rewrite (LowerQuantile_reachable d q Hr Hlen Hq). simpl. split.
  - unfold LowerQuantile.
    destruct (Rltb q' 0 || Rgtb q' 1 || (Count (sort d) =? 0)%Z);
      [reflexivity|].
    simpl. unfold sort at 1 3. now rewrite sort_sorted.
  - apply LowerQuantile_multiset.
    + now constructor.
    + exact Hr.
    + rewrite (sort_Values d (reachable_invariant d Hr)).
      apply Permutation_sym, Float64s_Permutation.
    + rewrite (sort_Values d (reachable_invariant d Hr)), Float64s_length.
      lia.
Qed.

End DatasetExtras.

(** ** Further worked instances *)

Section ExtraInstances.
Import mapping logarithmic_mapping dense_store.
#[local] Existing Instance reference_constants.

Lemma NewLogarithmicMapping_validation_witness :
  NewLogarithmicMapping 2 = Err InvalidAccuracy /\
  exists m,
    NewLogarithmicMapping (1 / 2) = Ok m /\
    RelativeAccuracy m = 1 / 2 /\
    normalizedIndexOffset m = 0 /\
    multiplier m = 1 / ln ((1 + 1 / 2) / (1 - 1 / 2)) /\
    0 < multiplier m.
Proof.
  split.
  - apply (proj1 (NewLogarithmicMapping_validation 2)). right. lra.
  - apply (proj2 (NewLogarithmicMapping_validation (1 / 2))). lra.
Defined.


Lemma half_accuracy_indexes_Value_0 m :
  NewLogarithmicMapping (1 / 2) = Ok m ->
  MinIndexableValue m <= Value m 0 <= MaxIndexableValue m.
Proof.
  intros Hm. pose proof (half_accuracy_indexes_one m Hm) as [Hlo _].
  apply NewLogarithmicMapping_Ok in Hm as (_ & Ha & Hoff & B).
  pose proof (built_with_ln_pos _ _ B) as L.
  destruct B as (_ & Hmul & _ & _ & Hhi).
  assert (L3 : 1 <= ln ((1 + 1 / 2) / (1 - 1 / 2))).
  { replace ((1 + 1 / 2) / (1 - 1 / 2)) with 3 by lra.
    rewrite <- (ln_exp 1). apply ln_le_mono; [apply exp_pos | apply exp_le_3]. }
  assert (HV : Value m 0 = 3 / 2).
  { unfold Value, math.Exp.
    rewrite Hoff, Ha, Rminus_diag, Rdiv_0_l, exp_0. lra. }
  rewrite HV. split; [lra|].
  unfold MaxIndexableValue. rewrite Hhi.
  unfold computeMaxIndexableValue, math.Min, math.Exp, math.MaxInt16.
  rewrite Hmul, Hoff, Ha. pose proof (exp_ineq1_le 1) as He1.
  apply Rmin_glb.
  - apply Rle_trans with (exp 1); [lra | apply exp_le_mono].
    replace ((32767 - 0) / (1 / ln ((1 + 1 / 2) / (1 - 1 / 2))))
      with (32767 * ln ((1 + 1 / 2) / (1 - 1 / 2))) by (field; lra).
    lra.
  - simpl. pose proof (exp_ineq1_le 7.094361393031e+02) as He. lra.
Qed.

Lemma Index_Value_roundtrip_witness :
  exists m,
    NewLogarithmicMapping (1 / 2) = Ok m /\
    MinIndexableValue m <= Value m 0 <= MaxIndexableValue m /\
    Index m (Value m 0) = 0%Z.
Proof.
  destruct (NewLogarithmicMapping_succeeds (1 / 2)) as [m Hm]; [lra|].
  exists m. pose proof (half_accuracy_indexes_Value_0 m Hm) as Hr.
  split; [exact Hm|]. split; [exact Hr|].
  apply (Index_Value_roundtrip (1 / 2) 2 0 m 0); [left; split; [lra | exact Hm]|].
  exact Hr.
Defined.


Lemma Add_spec_witness :
  exists s,
    ddsketch.LogUnboundedDenseDDSketch (1 / 2) = Ok s /\
    ddsketch.Add s 0 = (Some ValueOutOfRange, s) /\
    ddsketch.Add s 1 =
      (None,
       {| ddsketch.IndexMapping := ddsketch.IndexMapping s;
          ddsketch.store :=
            store.AddWithCount (ddsketch.store s)
              (mapping.Index (ddsketch.IndexMapping s) 1) 1 |}).
Proof.
  destruct (LogUnboundedDenseDDSketch_succeeds (1 / 2)) as (m & Hm & Hs);
    [lra|].
  set (s := ddsketch.NewDDSketch m NewDenseStore).
  exists s. split; [exact Hs|].
  pose proof (half_accuracy_indexes_one m Hm) as Hr.
  assert (Hpos : 0 < MinIndexableValue m).
  { apply NewLogarithmicMapping_Ok in Hm as (_ & _ & _ & B).
    apply (indexable_positive _ _ _ B). apply Rle_refl. }
  split.
  - apply (proj1 (Add_spec s 0)). left. exact Hpos.
  - apply (proj2 (Add_spec s 1)). exact Hr.
Defined.

Lemma AddWithCount_rejects_nonpositive_witness :
  exists s,
    ddsketch.LogUnboundedDenseDDSketch (1 / 2) = Ok s /\
    0 < MinIndexableValue (ddsketch.IndexMapping s) /\
    ddsketch.AddWithCount s (-1) 3 = (Some ValueOutOfRange, s).
Proof.
  destruct (LogUnboundedDenseDDSketch_succeeds (1 / 2)) as (m & Hm & Hs);
    [lra|].
  exists (ddsketch.NewDDSketch m NewDenseStore). split; [exact Hs|].
  apply (AddWithCount_rejects_nonpositive (1 / 2)
           (ddsketch.NewDDSketch m NewDenseStore) (-1) 3);
    [lra | exact Hm | lra].
Defined.

Lemma accepted_index_within_int16_witness :
  exists s,
    ddsketch.LogUnboundedDenseDDSketch (1 / 2) = Ok s /\
    MinIndexableValue (ddsketch.IndexMapping s) <= 1
      <= MaxIndexableValue (ddsketch.IndexMapping s) /\
    (math.MinInt16 <= Index (ddsketch.IndexMapping s) 1 <= math.MaxInt16)%Z /\
    ddsketch.AddWithCount s 1 1 =
      (None,
       {| ddsketch.IndexMapping := ddsketch.IndexMapping s;
          ddsketch.store :=
            store.AddWithCount (ddsketch.store s)
              (Index (ddsketch.IndexMapping s) 1) 1 |}).
Proof.
  destruct (LogUnboundedDenseDDSketch_succeeds (1 / 2)) as (m & Hm & Hs);
    [lra|].
  set (s := ddsketch.NewDDSketch m NewDenseStore).
  exists s. split; [exact Hs|].
  pose proof (half_accuracy_indexes_one m Hm) as Hr.
  split; [exact Hr|].
  apply (accepted_index_within_int16 (1 / 2) 2 0 s 1 1);
    [left; split; [lra | exact Hm] | exact Hr | lia].
Defined.

Lemma GetValuesAtQuantiles_spec_witness :
  exists s,
    ddsketch.LogUnboundedDenseDDSketch (1 / 2) = Ok s /\
    ddsketch.GetValuesAtQuantiles s [] = Ok [] /\
    ddsketch.GetValuesAtQuantiles s [1 / 2; 2] = Err EmptyState.
Proof.
  destruct (LogUnboundedDenseDDSketch_succeeds (1 / 2)) as (m & Hm & Hs);
    [lra|].
  set (s := ddsketch.NewDDSketch m NewDenseStore).
  exists s. split; [exact Hs|].
  destruct (GetValuesAtQuantiles_spec s []) as [Hok _].
  destruct (GetValuesAtQuantiles_spec s [1 / 2; 2]) as [_ Herr].
  split.
  - apply Hok. constructor.
  - apply Herr. exists [], (1 / 2), [2].
    split; [reflexivity|]. split; [intros p []|].
    apply (proj1 (empty_store_queries m Unbounded)). lra.
Defined.

Lemma sketch_constructors_validation_witness :
  ddsketch.LogUnboundedDenseDDSketch 1 = Err InvalidAccuracy /\
  exists m,
    NewLogarithmicMapping (1 / 2) = Ok m /\
    ddsketch.LogCollapsingLowestDenseDDSketch (1 / 2) 10
    = Ok (ddsketch.NewDDSketch m (NewCollapsingLowestDenseStore 10)).
Proof.
  split.
  - apply (proj1 (sketch_constructors_validation 1 10)). right. lra.
  - destruct (proj2 (sketch_constructors_validation (1 / 2) 10))
      as (m & Hm & _ & _ & Hlow & _); [lra|].
    exists m. split; [exact Hm | exact Hlow].
Defined.

Lemma one_then_three_reachable :
  dataset.reachable (dataset.Add (dataset.Add dataset.NewDataset 1) 3).
Proof. repeat constructor. Qed.

Lemma Dataset_invariant_witness :
  dataset.reachable dataset.three_then_one /\
  dataset.Count dataset.three_then_one = 2%Z /\
  (dataset.sorted dataset.three_then_one = true ->
   Sorted Rle (dataset.Values dataset.three_then_one)).
Proof.
  split; [exact three_then_one_reachable|].
  destruct (Dataset_invariant dataset.three_then_one three_then_one_reachable)
    as (_ & Hc & Hs).
  split; [apply Hc; simpl; lia | exact Hs].
Defined.

Lemma Merge_spec_witness :
  dataset.Values (dataset.Merge dataset.three_then_one dataset.three_then_one)
  = [3; 1; 3; 1] /\
  dataset.Count (dataset.Merge dataset.three_then_one dataset.three_then_one)
  = wrap_int32 (2 + 2) /\
  dataset.sorted (dataset.Merge dataset.three_then_one dataset.three_then_one)
  = false /\
  dataset.Merge dataset.three_then_one dataset.NewDataset
  = dataset.three_then_one.
Proof.
  destruct (Merge_spec dataset.three_then_one dataset.three_then_one
              three_then_one_reachable) as (_ & Hv & Hc & Hs & _).
  destruct (Merge_spec dataset.three_then_one dataset.NewDataset
              three_then_one_reachable) as (_ & _ & _ & _ & He).
  split; [exact Hv|]. split; [exact Hc|].
  split; [apply Hs; discriminate | apply He; reflexivity].
Defined.

Lemma Min_Max_extremes_witness :
  exists lo hi,
    fst (dataset.Min dataset.three_then_one) = dataset.Returns lo /\
    fst (dataset.Max dataset.three_then_one) = dataset.Returns hi /\
    In lo [3; 1] /\ In hi [3; 1] /\
    (forall x, In x [3; 1] -> lo <= x <= hi).
Proof.
  apply (Min_Max_extremes dataset.three_then_one three_then_one_reachable).
  discriminate.
Defined.

Lemma Quantile_endpoints_witness :
  exists lo hi,
    fst (dataset.Min dataset.three_then_one) = dataset.Returns lo /\
    fst (dataset.Max dataset.three_then_one) = dataset.Returns hi /\
    fst (dataset.Quantile dataset.three_then_one 0) = dataset.Returns (Num lo) /\
    fst (dataset.Quantile dataset.three_then_one 1) = dataset.Returns (Num hi).
Proof.
  apply (Quantile_endpoints dataset.three_then_one three_then_one_reachable).
  simpl. lia.
Defined.

Lemma LowerQuantile_le_UpperQuantile_witness :
  exists lo hi,
    fst (dataset.LowerQuantile dataset.three_then_one (1 / 2))
    = dataset.Returns (Num lo) /\
    fst (dataset.UpperQuantile dataset.three_then_one (1 / 2))
    = dataset.Returns (Num hi) /\
    lo <= hi.
Proof.
  destruct (LowerQuantile_le_UpperQuantile dataset.three_then_one (1 / 2)
              three_then_one_reachable) as (lo & hi & H1 & H2 & H3 & _);
    [simpl; lia | lra |].
  exists lo, hi. auto.
Defined.

Lemma Quantile_monotone_witness :
  exists x1 x2,
    fst (dataset.Quantile dataset.three_then_one (1 / 4))
    = dataset.Returns (Num x1) /\
    fst (dataset.Quantile dataset.three_then_one (3 / 4))
    = dataset.Returns (Num x2) /\
    x1 <= x2.
Proof.
  apply (Quantile_monotone dataset.three_then_one (1 / 4) (3 / 4)
           three_then_one_reachable); [simpl; lia | lra..].
Defined.

Lemma Quantile_order_independent_witness :
  fst (dataset.Quantile dataset.three_then_one (1 / 2))
  = fst (dataset.Quantile
           (dataset.Add (dataset.Add dataset.NewDataset 1) 3) (1 / 2)).
Proof.
  apply (Quantile_order_independent dataset.three_then_one
           (dataset.Add (dataset.Add dataset.NewDataset 1) 3) (1 / 2)
           three_then_one_reachable one_then_three_reachable).
  - simpl. apply perm_swap.
  - simpl. lia.
Defined.

Lemma Quantile_repeatable_witness :
  snd (dataset.Quantile
         (snd (dataset.Quantile dataset.three_then_one (1 / 2))) 1)
  = snd (dataset.Quantile dataset.three_then_one (1 / 2)) /\
  fst (dataset.Quantile
         (snd (dataset.Quantile dataset.three_then_one (1 / 2))) 1)
  = fst (dataset.Quantile dataset.three_then_one 1).
Proof.
  apply (Quantile_repeatable dataset.three_then_one (1 / 2) 1
           three_then_one_reachable); [simpl; lia | lra].
Defined.

End ExtraInstances.
